(** * A shallow embedding of the stack virtual machine of [svm/stack_vm.cpp]

    The development follows the source file top-down: the opcode
    enumeration and the [Instruction] struct, the bounded [Stack] class,
    the sparse [Memory] class, and the [ExecutionEngine] with its
    [execute] / [load_program] / [run] member functions.

    Modelling conventions.
    - [int] is a 32-bit two's complement integer, carried as a [Z]; the
      results of [+], [-] and [*] are reduced by [wrap].  The quotient
      of [INT_MIN] by [-1] does not fit an [int], which leaves both
      [INT_MIN / -1] and [INT_MIN % -1] undefined; the source does not
      guard them, and they are the [Undefined] outcome.
    - The [size_t] program counter is a [nat]: the loop never takes it
      past the length of the program.
    - A [runtime_error] is identified by its [what()] message.
    - C++ exceptions are the [Thrown] outcome of a computation; the
      state which the callee had reached when it threw is kept, because
      stack unwinding does not roll side effects back.
    - Reading [operands[0]] of an instruction that carries no operand is
      an out-of-range [vector::operator[]]: the [Undefined] outcome.
    - [cout] and [cerr] are the text written so far. *)

From Stdlib Require Import ZArith String Ascii DecimalString Lia.
From stdpp Require Import base option list gmap strings.

(** ** Machine integers *)

Definition INT_MIN : Z := (- 2 ^ 31)%Z.
Definition INT_MAX : Z := (2 ^ 31 - 1)%Z.

(** Reduction of a mathematical integer into the range of [int]. *)
Definition wrap (z : Z) : Z := ((z + 2 ^ 31) mod 2 ^ 32 - 2 ^ 31)%Z.

(** The one pair of operands, with a non-zero divisor, on which [a / b]
    and [a % b] overflow. *)
Definition quotient_overflows (a b : Z) : bool :=
  (a =? INT_MIN)%Z && (b =? -1)%Z.

(** [operator<<] on an [int] and on a [size_t]: decimal digits. *)
Definition show_int (z : Z) : string := NilZero.string_of_int (Z.to_int z).
Definition show_size (n : nat) : string := NilZero.string_of_uint (Nat.to_uint n).

(** [endl] writes a line feed (and flushes). *)
Definition endl : string := String (ascii_of_nat 10) EmptyString.

(** ** Instructions *)

Inductive OpCode : Set :=
| PUSH | POP | ADD | SUB | MUL | DIV | MOD
| LOAD | STORE | JMP | JZ | JNZ | CALL | RET
| PRINT | HALT
| DUP
| SWAP
| CMP.

Record Instruction : Set := mkInstruction {
  opcode : OpCode;
  operands : list Z
}.

(** ** Errors and outcomes *)

Inductive runtime_error : Set :=
| StackOverflow
| StackUnderflow
| EmptyStack
| DivisionByZero
| ModuloByZero
| AddressOutOfBounds
| UnknownInstruction.

(** The message each [runtime_error] is constructed with in the source. *)
Definition what (e : runtime_error) : string :=
  match e with
  | StackOverflow => "Stack Overflow"
  | StackUnderflow => "Stack Underflow"
  | EmptyStack => "Stack is empty"
  | DivisionByZero => "Division by zero"
  | ModuloByZero => "Modulo by zero"
  | AddressOutOfBounds => "Memory address out of bounds"
  | UnknownInstruction => "Unknown instruction"
  end.

(** How a member function called in state [s : St] can end. *)
Inductive outcome (St A : Type) : Type :=
| Normal (a : A) (s : St)
| Thrown (e : runtime_error) (s : St)
| Undefined.

Arguments Normal {St A} a s.
Arguments Thrown {St A} e s.
Arguments Undefined {St A}.

(** Computations over a mutable state [St]. *)
Definition M (St A : Type) : Type := St -> outcome St A.

Definition ret {St A} (a : A) : M St A := fun s => Normal a s.

Definition throw {St A} (e : runtime_error) : M St A := fun s => Thrown e s.

Definition undefined {St A} : M St A := fun _ => Undefined.

Definition bind {St A B} (m : M St A) (k : A -> M St B) : M St B :=
  fun s =>
    match m s with
    | Normal a s' => k a s'
    | Thrown e s' => Thrown e s'
    | Undefined => Undefined
    end.

Declare Scope vm_scope.
Delimit Scope vm_scope with vm.
Notation "'let*' x ':=' m 'in' k" := (bind m (fun x => k))
  (at level 10, x name, m at level 100, k at level 200) : vm_scope.
Notation "m ';;' k" := (bind m (fun _ => k))
  (at level 100, k at level 200, right associativity) : vm_scope.
Open Scope vm_scope.

(** ** class Stack *)

Module Stack.

(** The private [vector<int> stack]; the head of the list is [back()]. *)
Definition t : Type := list Z.

Definition MAX_SIZE : nat := 1024.

Definition size (stack : t) : nat := length stack.

Definition empty (stack : t) : bool :=
  match stack with [] => true | _ :: _ => false end.

Definition push (value : Z) : M t unit :=
  fun stack =>
    if (MAX_SIZE <=? size stack)%nat
    then Thrown StackOverflow stack
    else Normal tt (value :: stack).

Definition pop : M t Z :=
  fun stack =>
    match stack with
    | [] => Thrown StackUnderflow stack
    | value :: rest => Normal value rest
    end.

Definition peek : M t Z :=
  fun stack =>
    match stack with
    | [] => Thrown EmptyStack stack
    | value :: _ => Normal value stack
    end.

Definition dup : M t unit :=
  fun stack =>
    if empty stack then Thrown StackUnderflow stack
    else (let* v := peek in push v) stack.

Definition swap : M t unit :=
  fun stack =>
    if (size stack <? 2)%nat then Thrown StackUnderflow stack
    else (let* a := pop in
          let* b := pop in
          push a ;;
          push b) stack.

End Stack.

(** ** class Memory *)

Module Memory.

(** The private [unordered_map<int, int> memory]. *)
Abbreviation t := (gmap Z Z).

Definition MAX_ADDRESS : Z := 65535.

Definition out_of_bounds (address : Z) : bool :=
  (address <? 0)%Z || (MAX_ADDRESS <? address)%Z.

Definition store (address value : Z) : M t unit :=
  fun memory =>
    if out_of_bounds address then Thrown AddressOutOfBounds memory
    else Normal tt (<[address := value]> memory).

Definition load (address : Z) : M t Z :=
  fun memory =>
    if out_of_bounds address then Thrown AddressOutOfBounds memory
    else match memory !! address with
         | None => Normal 0%Z memory
         | Some value => Normal value memory
         end.

End Memory.

(** ** class ExecutionEngine *)

Record ExecutionEngine : Type := mkEngine {
  program : list Instruction;
  stack : Stack.t;
  memory : Memory.t;
  call_stack : Stack.t;
  pc : nat;
  running : bool
}.

(** The engine together with the two standard streams it writes to. *)
Record World : Type := mkWorld {
  engine : ExecutionEngine;
  cout : string;
  cerr : string
}.

Definition set_stack (s : Stack.t) (e : ExecutionEngine) :=
  mkEngine (program e) s (memory e) (call_stack e) (pc e) (running e).
Definition set_memory (m : Memory.t) (e : ExecutionEngine) :=
  mkEngine (program e) (stack e) m (call_stack e) (pc e) (running e).
Definition set_pc (n : nat) (e : ExecutionEngine) :=
  mkEngine (program e) (stack e) (memory e) (call_stack e) n (running e).
Definition set_running (b : bool) (e : ExecutionEngine) :=
  mkEngine (program e) (stack e) (memory e) (call_stack e) (pc e) b.

Definition with_engine (f : ExecutionEngine -> ExecutionEngine) (w : World) :=
  mkWorld (f (engine w)) (cout w) (cerr w).
Definition write_cout (text : string) (w : World) :=
  mkWorld (engine w) (cout w ++ text) (cerr w).
Definition write_cerr (text : string) (w : World) :=
  mkWorld (engine w) (cout w) (cerr w ++ text).

(** A member function of the [stack] field run inside the engine. *)
Definition on_stack {A} (m : M Stack.t A) : M World A :=
  fun w =>
    match m (stack (engine w)) with
    | Normal a s => Normal a (with_engine (set_stack s) w)
    | Thrown e s => Thrown e (with_engine (set_stack s) w)
    | Undefined => Undefined
    end.

(** A member function of the [memory] field run inside the engine. *)
Definition on_memory {A} (m : M Memory.t A) : M World A :=
  fun w =>
    match m (memory (engine w)) with
    | Normal a s => Normal a (with_engine (set_memory s) w)
    | Thrown e s => Thrown e (with_engine (set_memory s) w)
    | Undefined => Undefined
    end.

(** [instr.operands[i]]: no bounds check in the source. *)
Definition operand (instr : Instruction) (i : nat) : M World Z :=
  fun w =>
    match operands instr !! i with
    | Some v => Normal v w
    | None => Undefined
    end.

(** [cout << v << endl] *)
Definition print (v : Z) : M World unit :=
  fun w => Normal tt (write_cout (show_int v ++ endl) w).

(** The [switch] inside the [try] block of [execute]. *)
Definition dispatch (instr : Instruction) : M World unit :=
  match opcode instr with
  | PUSH =>
      let* v := operand instr 0 in
      on_stack (Stack.push v)
  | POP =>
      let* _ := on_stack Stack.pop in
      ret tt
  | ADD =>
      let* b := on_stack Stack.pop in
      let* a := on_stack Stack.pop in
      on_stack (Stack.push (wrap (a + b)))
  | SUB =>
      let* b := on_stack Stack.pop in
      let* a := on_stack Stack.pop in
      on_stack (Stack.push (wrap (a - b)))
  | MUL =>
      let* b := on_stack Stack.pop in
      let* a := on_stack Stack.pop in
      on_stack (Stack.push (wrap (a * b)))
  | DIV =>
      let* b := on_stack Stack.pop in
      if (b =? 0)%Z then throw DivisionByZero
      else
        let* a := on_stack Stack.pop in
        if quotient_overflows a b then undefined
        else on_stack (Stack.push (wrap (Z.quot a b)))
  | MOD =>
      let* b := on_stack Stack.pop in
      if (b =? 0)%Z then throw ModuloByZero
      else
        let* a := on_stack Stack.pop in
        if quotient_overflows a b then undefined
        else on_stack (Stack.push (wrap (Z.rem a b)))
  | LOAD =>
      let* address := operand instr 0 in
      let* v := on_memory (Memory.load address) in
      on_stack (Stack.push v)
  | STORE =>
      (* the two arguments of [store] are evaluated in an unspecified
         order; it only shows when the instruction has no operand *)
      let* address := operand instr 0 in
      let* v := on_stack Stack.pop in
      on_memory (Memory.store address v)
  | DUP => on_stack Stack.dup
  | SWAP => on_stack Stack.swap
  | CMP =>
      let* b := on_stack Stack.pop in
      let* a := on_stack Stack.pop in
      on_stack (Stack.push (if (a <? b)%Z then (-1)%Z
                            else if (a >? b)%Z then 1%Z else 0%Z))
  | PRINT =>
      let* v := on_stack Stack.pop in
      print v
  | HALT =>
      fun w => Normal tt (with_engine (set_running false) w)
  | _ => throw UnknownInstruction
  end.

(** The line the [catch] handler writes to [cerr]. *)
Definition diagnostic (at_pc : nat) (e : runtime_error) : string :=
  "Runtime error at PC=" ++ show_size at_pc ++ ": " ++ what e ++ endl.

(** [execute]: the [switch] wrapped in [try] / [catch (runtime_error)]. *)
Definition execute (instr : Instruction) : M World unit :=
  fun w =>
    match dispatch instr w with
    | Normal a w' => Normal a w'
    | Thrown e w' =>
        Normal tt (with_engine (set_running false)
                     (write_cerr (diagnostic (pc (engine w')) e) w'))
    | Undefined => Undefined
    end.

(** [while (!call_stack.empty()) call_stack.pop();] *)
Fixpoint drain (s : Stack.t) : Stack.t :=
  match s with
  | [] => s
  | _ :: rest => drain rest
  end.

Definition load_program (bytecode : list Instruction) (w : World) : World :=
  with_engine
    (fun e =>
       mkEngine bytecode (stack e) (memory e) (drain (call_stack e)) 0 true)
    w.

(** The condition of the [while] loop of [run]. *)
Definition continuing (w : World) : bool :=
  running (engine w) && (pc (engine w) <? length (program (engine w)))%nat.

(** [pc++] *)
Definition advance (w : World) : World :=
  with_engine (fun e => set_pc (S (pc e)) e) w.

(** The body of the [while] loop of [run]: [execute(program[pc]); pc++]. *)
Definition body (w : World) : outcome World unit :=
  match program (engine w) !! pc (engine w) with
  | None => Undefined
  | Some instr =>
      match execute instr w with
      | Normal _ w1 => Normal tt (advance w1)
      | Thrown e w1 => Thrown e w1
      | Undefined => Undefined
      end
  end.

(** The loop of [run], unrolled at most [fuel] times.  [None] means that
    the loop was still going when the fuel ran out; a [Normal] outcome
    carries the number of instructions that were dispatched. *)
Fixpoint run_loop (fuel : nat) (w : World) : option (outcome World nat) :=
  if continuing w then
    match fuel with
    | O => None
    | S fuel' =>
        match body w with
        | Normal _ w1 =>
            match run_loop fuel' w1 with
            | Some (Normal k w2) => Some (Normal (S k) w2)
            | r => r
            end
        | Thrown e w1 => Some (Thrown e w1)
        | Undefined => Some Undefined
        end
    end
  else Some (Normal O w).

(** [run]: the loop with the fuel it can need at most, one unrolling for
    each instruction from [pc] to the end of the program. *)
Definition run (w : World) : option (outcome World nat) :=
  run_loop (length (program (engine w)) - pc (engine w)) w.

(** A default-constructed engine, with nothing written yet. *)
Definition fresh : World :=
  mkWorld (mkEngine [] [] ∅ [] 0 true) EmptyString EmptyString.

(** The program of [main]. *)
Definition main_program : list Instruction :=
  [ mkInstruction PUSH [5%Z];
    mkInstruction STORE [0%Z];
    mkInstruction PUSH [10%Z];
    mkInstruction STORE [1%Z];
    mkInstruction LOAD [0%Z];
    mkInstruction LOAD [1%Z];
    mkInstruction ADD [];
    mkInstruction PRINT [];
    mkInstruction HALT [] ].

(** The state [n] completed iterations of the loop of [run] lead to, if
    the loop does go round that often. *)
Fixpoint iterations (n : nat) (w : World) : option World :=
  match n with
  | O => Some w
  | S n' =>
      if continuing w then
        match body w with
        | Normal _ w1 => iterations n' w1
        | _ => None
        end
      else None
  end.

(** The operand count each opcode reads at dispatch. *)
Definition arity (op : OpCode) : nat :=
  match op with
  | PUSH | LOAD | STORE => 1
  | _ => 0
  end.

Definition well_formed (instr : Instruction) : Prop :=
  arity (opcode instr) <= length (operands instr).

(** The opcodes that have a [case] in the [switch]. *)
Definition implemented (op : OpCode) : bool :=
  match op with
  | JMP | JZ | JNZ | CALL | RET => false
  | _ => true
  end.

(** ** Notions used in the statements *)

(** What no implemented opcode writes to: three fields of the engine,
    and the diagnostic stream. *)
Definition same_control (w w' : World) : Prop :=
  program (engine w') = program (engine w) /\
  pc (engine w') = pc (engine w) /\
  call_stack (engine w') = call_stack (engine w) /\
  cerr w' = cerr w.

(** A computation that, however it ends, has left [program], [pc],
    [call_stack] and [cerr] as they were. *)
Definition keeps_control {A} (m : M World A) : Prop :=
  forall w,
    match m w with
    | Normal _ w' | Thrown _ w' => same_control w w'
    | Undefined => True
    end.

(** [n] more dispatches counted on top of an outcome of the loop. *)
Definition counted (n : nat) (r : option (outcome World nat)) :
    option (outcome World nat) :=
  match r with
  | Some (Normal k w) => Some (Normal (n + k) w)
  | _ => r
  end.

(** The errors that reach the [catch] handler: every [runtime_error] of
    the source but the one of [peek], which [dup] rules out first. *)
Definition raisable (e : runtime_error) : bool :=
  match e with
  | StackOverflow | StackUnderflow | DivisionByZero | ModuloByZero
  | AddressOutOfBounds | UnknownInstruction => true
  | EmptyStack => false
  end.

(** A computation that always ends, normally or with a [raisable] error. *)
Definition safe {St A} (m : M St A) : Prop :=
  forall s,
    match m s with
    | Normal _ _ => True
    | Thrown e _ => raisable e = true
    | Undefined => False
    end.

Definition div_program : list Instruction :=
  [ mkInstruction PUSH [7%Z]; mkInstruction PUSH [0%Z]; mkInstruction DIV [] ].

Definition mod_program : list Instruction :=
  [ mkInstruction PUSH [7%Z]; mkInstruction PUSH [0%Z]; mkInstruction MOD [] ].

(** The dividend is gone from the operand stack once the run of [p] on a
    fresh engine is over. *)
Definition dividend_lost (p : list Instruction) : Prop :=
  exists k w',
    run (load_program p fresh) = Some (Normal k w') /\
    7%Z ∉ stack (engine w').

(** The engine at the third instruction of [p], both operands pushed. *)
Definition operands_pushed (p : list Instruction) : World :=
  mkWorld (mkEngine p [0%Z; 7%Z] ∅ [] 2 true) EmptyString EmptyString.

(** The same engine once the divisor alone has been popped. *)
Definition divisor_popped (p : list Instruction) : World :=
  mkWorld (mkEngine p [7%Z] ∅ [] 2 true) EmptyString EmptyString.

(** The engine [run] returns in after the error [e] at index 2 of [p]. *)
Definition halted_on (p : list Instruction) (e : runtime_error) : World :=
  mkWorld (mkEngine p [7%Z] ∅ [] 3 false) EmptyString (diagnostic 2 e).

(** The memory a sequence of [store(address, value)] calls leaves behind;
    a call that throws has stored nothing. *)
Definition after_stores (calls : list (Z * Z)) (m : Memory.t) : Memory.t :=
  foldl
    (fun m call =>
       match Memory.store call.1 call.2 m with
       | Normal _ m' | Thrown _ m' => m'
       | Undefined => m
       end)
    m calls.

(** The engine after the [catch] handler has dealt with [e], thrown in
    state [w1]. *)
Definition caught (e : runtime_error) (w1 : World) : World :=
  with_engine (set_running false)
    (write_cerr (diagnostic (pc (engine w1)) e) w1).

Definition jump_program : list Instruction :=
  [ mkInstruction PUSH [1%Z]; mkInstruction JMP [0%Z]; mkInstruction HALT [] ].

(** The engine about to dispatch the JMP of [jump_program]. *)
Definition at_jump : World :=
  mkWorld (mkEngine jump_program [1%Z] ∅ [] 1 true) EmptyString EmptyString.

(** A program of PUSH instructions, one for each value of [vs]. *)
Definition pushes (vs : list Z) : list Instruction :=
  (fun v => mkInstruction PUSH [v]) <$> vs.

(** The engine after the values [vs] have been pushed by as many
    instructions. *)
Definition pushed (vs : list Z) (w : World) : World :=
  with_engine
    (fun e => set_pc (pc e + length vs) (set_stack (reverse vs ++ stack e) e))
    w.

(** The engine that has run [PUSH v; STORE a] off its end. *)
Definition stored (a v : Z) : World :=
  mkWorld
    (mkEngine [mkInstruction PUSH [v]; mkInstruction STORE [a]]
       [] {[ a := v ]} [] 2 true)
    EmptyString EmptyString.

(** The engine [run] returns in on [jump_program]: stopped by the JMP at
    index 1. *)
Definition after_jump : World :=
  mkWorld (mkEngine jump_program [1%Z] ∅ [] 2 false)
    EmptyString (diagnostic 1 UnknownInstruction).

(** The opcodes that divide. *)
Definition is_division (op : OpCode) : bool :=
  match op with
  | DIV | MOD => true
  | _ => false
  end.

(** The instruction [instr] is a DIV or a MOD, and the engine has [-1] on
    top of [INT_MIN] on its operand stack. *)
Definition division_overflows_at (instr : Instruction) (w : World) : Prop :=
  is_division (opcode instr) = true /\
  exists rest, stack (engine w) = (-1)%Z :: INT_MIN :: rest.

(** The loop of [run], started in [w0], comes to dispatch a DIV or a MOD
    of [INT_MIN] by [-1]. *)
Definition reaches_division_overflow (w0 : World) : Prop :=
  exists n w instr,
    iterations n w0 = Some w /\
    running (engine w) = true /\
    program (engine w) !! pc (engine w) = Some instr /\
    division_overflows_at instr w.

Definition overflow_div_program : list Instruction :=
  [ mkInstruction PUSH [INT_MIN]; mkInstruction PUSH [(-1)%Z];
    mkInstruction DIV [] ].

Definition overflow_mod_program : list Instruction :=
  [ mkInstruction PUSH [INT_MIN]; mkInstruction PUSH [(-1)%Z];
    mkInstruction MOD [] ].

(** The engine at the third instruction of [p], [INT_MIN] and [-1]
    pushed. *)
Definition overflow_operands_pushed (p : list Instruction) : World :=
  mkWorld (mkEngine p [(-1)%Z; INT_MIN] ∅ [] 2 true) EmptyString EmptyString.

(** [run], called on a fresh engine into which [p] has been loaded,
    returns within as many dispatches as [p] has instructions. *)
Definition returns_within_program (p : list Instruction) : Prop :=
  exists k w',
    run (load_program p fresh) = Some (Normal k w') /\ k <= length p.

(** ** The rest of the source: the debug helper and the façade *)

(** [dump_stack]: the size of the operand stack and, when there is one,
    its top value, written to [cout]. *)
Definition dump_stack : M World unit :=
  fun w =>
    let w1 :=
      write_cout
        ("Stack size: " ++ show_size (Stack.size (stack (engine w))) ++ endl) w
    in
    if Stack.empty (stack (engine w1)) then Normal tt w1
    else
      (let* top := on_stack Stack.peek in
       fun w2 =>
         Normal tt (write_cout ("Top of stack: " ++ show_int top ++ endl) w2))
        w1.

(** class VirtualMachine: its one field is the engine, to which every
    member function forwards. *)
Module VirtualMachine.

Definition load_program (program : list Instruction) (w : World) : World :=
  load_program program w.

Definition run (w : World) : option (outcome World nat) := run w.

Definition dump_state : M World unit := dump_stack.

End VirtualMachine.

(** ** Notions used in the further properties *)

(** The member functions of [Stack] that a caller can invoke. *)
Inductive stack_call : Set :=
| Push (value : Z)
| Pop
| Peek
| Dup
| Swap.

(** The stack one call leaves behind, whether it returned or threw. *)
Definition after_call (s : Stack.t) (c : stack_call) : Stack.t :=
  let left {A} (r : outcome Stack.t A) : Stack.t :=
    match r with
    | Normal _ s' | Thrown _ s' => s'
    | Undefined => s
    end
  in
  match c with
  | Push v => left (Stack.push v s)
  | Pop => left (Stack.pop s)
  | Peek => left (Stack.peek s)
  | Dup => left (Stack.dup s)
  | Swap => left (Stack.swap s)
  end.

Definition after_calls (cs : list stack_call) (s : Stack.t) : Stack.t :=
  foldl after_call s cs.

(** A computation that keeps the property [I] of the state, however it
    ends. *)
Definition preserves {St A} (I : St -> Prop) (m : M St A) : Prop :=
  forall s,
    I s ->
    match m s with
    | Normal _ s' | Thrown _ s' => I s'
    | Undefined => True
    end.

Definition within_capacity (s : Stack.t) : Prop :=
  Stack.size s <= Stack.MAX_SIZE.

Definition keys_in_bounds (m : Memory.t) : Prop :=
  forall a, is_Some (m !! a) -> (0 <= a <= Memory.MAX_ADDRESS)%Z.

(** The representation invariant of the engine. *)
Definition engine_ok (w : World) : Prop :=
  within_capacity (stack (engine w)) /\ keys_in_bounds (memory (engine w)).

(** The values of [int]. *)
Definition is_int (z : Z) : Prop := (INT_MIN <= z <= INT_MAX)%Z.

(** The result [CMP] pushes for [a] below [b] on the stack. *)
Definition compare_ints (a b : Z) : Z :=
  if (a <? b)%Z then (-1)%Z else if (a >? b)%Z then 1%Z else 0%Z.

(** A computation whose final state, however it ends, is related by [R]
    to the state it started in. *)
Definition relates {A} (R : World -> World -> Prop) (m : M World A) : Prop :=
  forall w,
    match m w with
    | Normal _ w' | Thrown _ w' => R w w'
    | Undefined => True
    end.

(** Nothing written to [cout]. *)
Definition same_cout (w w' : World) : Prop := cout w' = cout w.

(** Text added to [cout], none taken away. *)
Definition more_cout (w w' : World) : Prop :=
  exists text, cout w' = (cout w ++ text)%string.

(** Opcodes can be compared. *)
#[global] Instance OpCode_eq_dec : EqDecision OpCode.
Proof. solve_decision. Defined.

(** A fresh engine whose operand stack already holds [s]. *)
Definition holding (s : Stack.t) : World :=
  mkWorld (mkEngine [] s ∅ [] 0 true) EmptyString EmptyString.

(** * Properties *)

(** ** Machine integers *)

Lemma wrap_range z : (INT_MIN <= wrap z <= INT_MAX)%Z.
Proof.
  unfold wrap, INT_MIN, INT_MAX.
  pose proof (Z.mod_pos_bound (z + 2 ^ 31) (2 ^ 32) ltac:(lia)). lia.
Qed.

Lemma wrap_in_range z : (INT_MIN <= z <= INT_MAX)%Z -> wrap z = z.
Proof.
  unfold wrap, INT_MIN, INT_MAX. intros H.
  rewrite Z.mod_small by lia. lia.
Qed.

(** ** What a dispatch leaves alone *)

Lemma same_control_refl w : same_control w w.
Proof. by unfold same_control. Qed.

Lemma same_control_trans w1 w2 w3 :
  same_control w1 w2 -> same_control w2 w3 -> same_control w1 w3.
Proof. unfold same_control. intuition congruence. Qed.

Lemma keeps_ret {A} (a : A) : keeps_control (ret a).
Proof. intros w. apply same_control_refl. Qed.

Lemma keeps_throw {A} e : keeps_control (@throw World A e).
Proof. intros w. apply same_control_refl. Qed.

Lemma keeps_bind {A B} (m : M World A) (k : A -> M World B) :
  keeps_control m -> (forall a, keeps_control (k a)) -> keeps_control (bind m k).
Proof.
  intros Hm Hk w. unfold bind. specialize (Hm w).
  destruct (m w) as [a w1|e w1|]; [|done..].
  specialize (Hk a w1).
  destruct (k a w1); [| |done]; by eapply same_control_trans.
Qed.

Lemma keeps_on_stack {A} (m : M Stack.t A) : keeps_control (on_stack m).
Proof. intros w. unfold on_stack. by destruct (m _). Qed.

Lemma keeps_on_memory {A} (m : M Memory.t A) : keeps_control (on_memory m).
Proof. intros w. unfold on_memory. by destruct (m _). Qed.

Lemma keeps_operand instr i : keeps_control (operand instr i).
Proof.
  intros w. unfold operand. destruct (_ !! _); [|done].
  apply same_control_refl.
Qed.

Lemma keeps_print v : keeps_control (print v).
Proof. by intros w. Qed.

Lemma keeps_undefined {A} : keeps_control (@undefined World A).
Proof. by intros w. Qed.

Lemma keeps_dispatch instr : keeps_control (dispatch instr).
Proof.
  unfold dispatch.
  destruct (opcode instr);
    repeat first
      [ apply keeps_on_stack | apply keeps_on_memory | apply keeps_operand
      | apply keeps_print | apply keeps_ret | apply keeps_throw
      | apply keeps_undefined
      | apply keeps_bind; [|intros ?]
      | match goal with
        | |- keeps_control (if ?b then _ else _) => destruct b
        end ].
  intros w. by unfold same_control.
Qed.

(** ** The catch handler *)

Lemma execute_caught instr w :
  execute instr w = Undefined \/ exists w', execute instr w = Normal tt w'.
Proof.
  unfold execute. destruct (dispatch instr w) as [[] w'|e w'|]; eauto.
Qed.

Lemma execute_never_throws instr w e w' : execute instr w <> Thrown e w'.
Proof. by destruct (execute_caught instr w) as [->|[? ->]]. Qed.

Lemma execute_keeps instr w a w' :
  execute instr w = Normal a w' ->
  program (engine w') = program (engine w) /\ pc (engine w') = pc (engine w).
Proof.
  unfold execute. pose proof (keeps_dispatch instr w) as H.
  destruct (dispatch instr w) as [? w1|e w1|]; [| |done];
    destruct H as (Hp & Hc & _); intros [= _ <-]; by simpl.
Qed.

Lemma body_keeps w a w' :
  body w = Normal a w' ->
  program (engine w') = program (engine w) /\
  pc (engine w') = S (pc (engine w)).
Proof.
  unfold body. destruct (_ !! _) as [instr|]; [|done].
  destruct (execute instr w) as [? w1|e w1|] eqn:He; [|done..].
  intros [= _ <-]. apply execute_keeps in He as [Hp Hc]. simpl.
  by rewrite Hp, Hc.
Qed.

Lemma body_never_throws w e w' : body w <> Thrown e w'.
Proof.
  unfold body. destruct (_ !! _) as [instr|]; [|done].
  destruct (execute_caught instr w) as [->|[? ->]]; done.
Qed.

(** ** The loop of [run] *)

Lemma run_loop_S fuel w :
  continuing w = true ->
  run_loop (S fuel) w =
    match body w with
    | Normal _ w1 => counted 1 (run_loop fuel w1)
    | Thrown e w1 => Some (Thrown e w1)
    | Undefined => Some Undefined
    end.
Proof.
  intros H. simpl. rewrite H.
  destruct (body w); [|done..]. by destruct (run_loop _ _) as [[]|].
Qed.

Lemma run_loop_stop fuel w :
  continuing w = false -> run_loop fuel w = Some (Normal 0 w).
Proof. intros H. destruct fuel; simpl; by rewrite H. Qed.

(** More fuel does not change a result. *)
Lemma run_loop_more fuel : forall w r fuel',
  run_loop fuel w = Some r -> fuel <= fuel' -> run_loop fuel' w = Some r.
Proof.
  induction fuel as [|fuel IH]; intros w r fuel' Hr Hle.
  - simpl in Hr. destruct (continuing w) eqn:Hc; [done|].
    by rewrite run_loop_stop.
  - destruct (continuing w) eqn:Hc.
    + destruct fuel' as [|fuel']; [lia|].
      rewrite run_loop_S in Hr |- * by done.
      destruct (body w) as [? w1| |]; [|done..].
      destruct (run_loop fuel w1) as [r1|] eqn:H1; [|done].
      by rewrite (IH w1 r1 fuel') by (done || lia).
    + rewrite run_loop_stop in Hr |- * by done. done.
Qed.

(** One unit of fuel for each instruction from [pc] on is enough. *)
Lemma run_loop_enough fuel : forall w,
  length (program (engine w)) - pc (engine w) <= fuel ->
  is_Some (run_loop fuel w).
Proof.
  induction fuel as [|fuel IH]; intros w Hle.
  - simpl. destruct (continuing w) eqn:Hc; [|by eexists].
    unfold continuing in Hc. apply andb_prop in Hc as [_ Hc].
    apply Nat.ltb_lt in Hc. lia.
  - destruct (continuing w) eqn:Hc.
    + rewrite run_loop_S by done.
      destruct (body w) as [? w1| |] eqn:Hb; [|by eexists..].
      apply body_keeps in Hb as [Hp Hpc].
      destruct (IH w1) as [r Hr]; [rewrite Hp, Hpc; lia|].
      rewrite Hr. destruct r; by eexists.
    + rewrite run_loop_stop by done. by eexists.
Qed.

Lemma run_terminates w : is_Some (run w).
Proof. by apply run_loop_enough. Qed.

(** [run] is what the loop computes with any amount of fuel that lets it
    finish. *)
Lemma run_loop_run fuel w r : run_loop fuel w = Some r -> run w = Some r.
Proof.
  intros Hr. destruct (run_terminates w) as [r' Hr'].
  unfold run in *.
  pose proof (run_loop_more _ _ _ (fuel + (length (program (engine w)) - pc (engine w))) Hr ltac:(lia)) as H1.
  pose proof (run_loop_more _ _ _ (fuel + (length (program (engine w)) - pc (engine w))) Hr' ltac:(lia)) as H2.
  congruence.
Qed.

Lemma run_stop w : continuing w = false -> run w = Some (Normal 0 w).
Proof. intros H. unfold run. by apply run_loop_stop. Qed.

Lemma run_step w w1 :
  continuing w = true -> body w = Normal tt w1 ->
  run w = counted 1 (run w1).
Proof.
  intros Hc Hb. destruct (run_terminates w1) as [r1 Hr1].
  rewrite Hr1. unfold run in Hr1.
  destruct r1 as [k w2|e w2|]; simpl;
    apply (run_loop_run (S (length (program (engine w1)) - pc (engine w1))));
    by rewrite run_loop_S, Hb, Hr1.
Qed.

Lemma run_undefined w :
  continuing w = true -> body w = Undefined -> run w = Some Undefined.
Proof.
  intros Hc Hb. apply (run_loop_run 1). by rewrite run_loop_S, Hb.
Qed.

Lemma counted_counted n m r : counted n (counted m r) = counted (n + m) r.
Proof. destruct r as [[k w| |]|]; simpl; try done. do 2 f_equal. lia. Qed.

Lemma iterations_run n : forall w w1,
  iterations n w = Some w1 -> run w = counted n (run w1).
Proof.
  induction n as [|n IH]; intros w w1 H; simpl in H.
  - injection H as <-. by destruct (run w) as [[]|].
  - destruct (continuing w) eqn:Hc; [|done].
    destruct (body w) as [[] w2| |] eqn:Hb; [|done..].
    rewrite (run_step w w2), (IH w2 w1), counted_counted by done.
    f_equal.
Qed.

(** No exception leaves the loop, whatever the program. *)
Lemma run_loop_never_throws fuel : forall w e w',
  run_loop fuel w <> Some (Thrown e w').
Proof.
  induction fuel as [|fuel IH]; intros w e w'.
  - simpl. by destruct (continuing w).
  - destruct (continuing w) eqn:Hc.
    + rewrite run_loop_S by done.
      pose proof (body_never_throws w) as Hb.
      destruct (body w) as [? w1|e1 w1|]; [|by destruct (Hb e1 w1)|done].
      specialize (IH w1 e w').
      by destruct (run_loop fuel w1) as [[]|].
    + by rewrite run_loop_stop.
Qed.

(** Where a run that returns has got to. *)
Lemma run_loop_final fuel : forall w k w',
  run_loop fuel w = Some (Normal k w') ->
  program (engine w') = program (engine w) /\
  pc (engine w') = pc (engine w) + k /\
  continuing w' = false.
Proof.
  induction fuel as [|fuel IH]; intros w k w' Hr.
  - simpl in Hr. destruct (continuing w) eqn:Hc; [done|].
    injection Hr as <- <-. split_and!; [done|lia|done].
  - destruct (continuing w) eqn:Hc.
    + rewrite run_loop_S in Hr by done.
      destruct (body w) as [? w1| |] eqn:Hb; [|done..].
      destruct (run_loop fuel w1) as [[k1 w2| |]|] eqn:H1; simplify_eq/=.
      apply IH in H1 as (Hp & Hpc & Hstop).
      apply body_keeps in Hb as [Hp1 Hpc1].
      split_and!; [congruence|lia|done].
    + rewrite run_loop_stop in Hr by done. injection Hr as <- <-.
      split_and!; [done|lia|done].
Qed.

(** ** What a dispatch can raise *)

Section Safe.
Context {St : Type}.

Lemma safe_ret {A} (a : A) : safe (@ret St A a).
Proof. by intros s. Qed.

Lemma safe_throw {A} e : raisable e = true -> safe (@throw St A e).
Proof. by intros H s. Qed.

Lemma safe_bind {A B} (m : M St A) (k : A -> M St B) :
  safe m -> (forall a, safe (k a)) -> safe (bind m k).
Proof.
  intros Hm Hk s. unfold bind. specialize (Hm s).
  destruct (m s) as [a s1|e s1|]; [|done..]. apply Hk.
Qed.
End Safe.

Lemma safe_push v : safe (Stack.push v).
Proof. intros s. unfold Stack.push. by destruct (_ <=? _). Qed.

Lemma safe_pop : safe Stack.pop.
Proof. by intros []. Qed.

Lemma safe_dup : safe Stack.dup.
Proof. intros [|v s]; [done|]. apply (safe_push v). Qed.

Lemma safe_swap : safe Stack.swap.
Proof.
  intros s. unfold Stack.swap. destruct (_ <? _); [done|].
  revert s. repeat (apply safe_bind; [|intros ?]);
    first [apply safe_pop | apply safe_push].
Qed.

Lemma safe_store a v : safe (Memory.store a v).
Proof. intros m. unfold Memory.store. by destruct (Memory.out_of_bounds a). Qed.

Lemma safe_load a : safe (Memory.load a).
Proof.
  intros m. unfold Memory.load.
  destruct (Memory.out_of_bounds a); [done|]. by destruct (m !! a).
Qed.

Lemma safe_on_stack {A} (m : M Stack.t A) : safe m -> safe (on_stack m).
Proof.
  intros H w. unfold on_stack. specialize (H (stack (engine w))).
  by destruct (m _).
Qed.

Lemma safe_on_memory {A} (m : M Memory.t A) : safe m -> safe (on_memory m).
Proof.
  intros H w. unfold on_memory. specialize (H (memory (engine w))).
  by destruct (m _).
Qed.

Lemma safe_operand instr :
  arity (opcode instr) = 1 -> well_formed instr -> safe (operand instr 0).
Proof.
  unfold well_formed. intros -> Hlen w. unfold operand.
  destruct (operands instr); simpl in *; [lia|done].
Qed.

Lemma safe_print v : safe (print v).
Proof. by intros w. Qed.

Lemma safe_dispatch instr :
  well_formed instr -> is_division (opcode instr) = false ->
  safe (dispatch instr).
Proof.
  intros Hwf Hdiv. unfold dispatch.
  destruct (opcode instr) eqn:Hop; try discriminate Hdiv;
    repeat first
      [ apply safe_on_stack | apply safe_on_memory
      | apply safe_operand; [by rewrite Hop|done]
      | apply safe_push | apply safe_pop | apply safe_dup | apply safe_swap
      | apply safe_load | apply safe_store
      | apply safe_print | apply safe_ret | by apply safe_throw
      | apply safe_bind; [|intros ?]
      | match goal with
        | |- safe (if ?b then _ else _) => destruct b
        end ].
  by intros w.
Qed.

Lemma set_stack_same w : with_engine (set_stack (stack (engine w))) w = w.
Proof. by destruct w as [[] ? ?]. Qed.

Lemma engine_pop_nil w :
  stack (engine w) = [] -> on_stack Stack.pop w = Thrown StackUnderflow w.
Proof.
  intros Hs. unfold on_stack. rewrite Hs. simpl.
  by rewrite <- Hs, set_stack_same.
Qed.

Lemma engine_pop_cons w v rest :
  stack (engine w) = v :: rest ->
  on_stack Stack.pop w = Normal v (with_engine (set_stack rest) w).
Proof. intros Hs. unfold on_stack. by rewrite Hs. Qed.

Lemma quotient_overflows_true a b :
  quotient_overflows a b = true <-> a = INT_MIN /\ b = (-1)%Z.
Proof.
  unfold quotient_overflows. rewrite andb_true_iff, !Z.eqb_eq. done.
Qed.

(** How a division ends: [zero] is the error of the zero divisor, [f] the
    operation. *)
Lemma division_outcome (zero : runtime_error) (f : Z -> Z -> Z) w :
  raisable zero = true ->
  match
    (let* b := on_stack Stack.pop in
     if (b =? 0)%Z then throw zero
     else
       let* a := on_stack Stack.pop in
       if quotient_overflows a b then undefined
       else on_stack (Stack.push (wrap (f a b)))) w
  with
  | Normal _ _ => True
  | Thrown e _ => raisable e = true
  | Undefined => exists rest, stack (engine w) = (-1)%Z :: INT_MIN :: rest
  end.
Proof.
  intros Hzero. unfold bind.
  destruct (stack (engine w)) as [|b [|a rest]] eqn:Hs.
  - by rewrite engine_pop_nil.
  - rewrite (engine_pop_cons w b []) by done.
    destruct (b =? 0)%Z; [done|]. by rewrite engine_pop_nil.
  - rewrite (engine_pop_cons w b (a :: rest)) by done.
    destruct (b =? 0)%Z; [done|].
    rewrite (engine_pop_cons _ a rest) by done.
    destruct (quotient_overflows a b) eqn:Hov.
    + apply quotient_overflows_true in Hov as [-> ->]. by exists rest.
    + pose proof (safe_on_stack _ (safe_push (wrap (f a b)))
                    (with_engine (set_stack rest)
                       (with_engine (set_stack (a :: rest)) w))) as H.
      by destruct (on_stack _ _).
Qed.

(** A well-formed instruction ends normally or raises a [raisable]
    error, unless it divides [INT_MIN] by [-1]. *)
Lemma dispatch_outcome instr w :
  well_formed instr ->
  match dispatch instr w with
  | Normal _ _ => True
  | Thrown e _ => raisable e = true
  | Undefined => division_overflows_at instr w
  end.
Proof.
  intros Hwf. destruct (is_division (opcode instr)) eqn:Hdiv.
  - unfold division_overflows_at. rewrite Hdiv. unfold dispatch.
    destruct (opcode instr); try discriminate Hdiv.
    + pose proof (division_outcome DivisionByZero Z.quot w eq_refl) as H.
      destruct (bind _ _ w); [done..|]. by split.
    + pose proof (division_outcome ModuloByZero Z.rem w eq_refl) as H.
      destruct (bind _ _ w); [done..|]. by split.
  - pose proof (safe_dispatch instr Hwf Hdiv w) as H.
    by destruct (dispatch instr w).
Qed.

(** ... and when it does, nothing is thrown: the outcome is undefined. *)
Lemma dispatch_division_overflow instr w :
  division_overflows_at instr w -> dispatch instr w = Undefined.
Proof.
  intros [Hdiv [rest Hs]]. unfold dispatch, bind.
  destruct (opcode instr); try discriminate Hdiv;
    rewrite (engine_pop_cons w (-1) (INT_MIN :: rest)) by done;
    cbv beta iota; change ((-1 =? 0)%Z) with false; cbv beta iota;
    rewrite (engine_pop_cons _ INT_MIN rest) by done;
    by rewrite (proj2 (quotient_overflows_true INT_MIN (-1))).
Qed.

Lemma execute_returns instr w :
  well_formed instr -> ~ division_overflows_at instr w ->
  exists w', execute instr w = Normal tt w'.
Proof.
  intros Hwf Hnot. pose proof (dispatch_outcome instr w Hwf) as H.
  unfold execute. destruct (dispatch instr w) as [[] w'|e w'|]; by eauto.
Qed.

Lemma reaches_later w w1 :
  continuing w = true -> body w = Normal tt w1 ->
  reaches_division_overflow w1 -> reaches_division_overflow w.
Proof.
  intros Hc Hb (n & v & instr & Hn & H). exists (S n), v, instr.
  split; [|done]. simpl. by rewrite Hc, Hb.
Qed.

Lemma body_returns w :
  Forall well_formed (program (engine w)) -> continuing w = true ->
  ~ reaches_division_overflow w ->
  exists w', body w = Normal tt w'.
Proof.
  intros Hwf Hc Hnot. unfold body. pose proof Hc as Hc'.
  unfold continuing in Hc. apply andb_prop in Hc as [Hr Hc].
  apply Nat.ltb_lt, lookup_lt_is_Some in Hc as [instr Hi]. rewrite Hi.
  destruct (execute_returns instr w) as [w' ->]; [| |by eauto].
  - eapply Forall_lookup_1; eauto.
  - intros Hov. apply Hnot. by exists 0, w, instr.
Qed.

(** A run over well-formed instructions returns, unless it comes to
    divide [INT_MIN] by [-1]. *)
Lemma run_loop_returns fuel : forall w,
  Forall well_formed (program (engine w)) ->
  ~ reaches_division_overflow w ->
  length (program (engine w)) - pc (engine w) <= fuel ->
  exists k w', run_loop fuel w = Some (Normal k w') /\ k <= fuel.
Proof.
  induction fuel as [|fuel IH]; intros w Hwf Hnot Hle.
  - destruct (run_loop_enough 0 w Hle) as [r Hr]. simpl in *.
    destruct (continuing w); [done|]. exists 0, w. by split.
  - destruct (continuing w) eqn:Hc.
    + rewrite run_loop_S by done.
      destruct (body_returns w Hwf Hc Hnot) as [w1 Hb]. rewrite Hb.
      pose proof (reaches_later w w1 Hc Hb) as Hlater.
      apply body_keeps in Hb as [Hp Hpc].
      destruct (IH w1) as (k & w' & -> & Hk);
        [by rewrite Hp|tauto|rewrite Hp, Hpc; lia|].
      exists (S k), w'. split; [done|lia].
    + rewrite run_loop_stop by done. exists 0, w. split; [done|lia].
Qed.

(** ** Division and modulo by zero *)

(** C1, as stated, fails: after [PUSH 7; PUSH 0; DIV] has run on a fresh
    engine and DivisionByZero has been raised, the operand stack does
    still contain the dividend 7. *)
Lemma div_by_zero_dividend_not_lost : ~ dividend_lost div_program.
Proof.
  intros (k & w' & Hrun & Hnot). vm_compute in Hrun.
  injection Hrun as _ <-. apply Hnot. simpl. left.
Qed.

(** C1, amended: [PUSH 7; PUSH 0; DIV] raises DivisionByZero and
    [PUSH 7; PUSH 0; MOD] raises ModuloByZero, both at index 2; when the
    error is raised only the divisor 0 has been popped, and it is not put
    back; the dividend 7 stays on the operand stack, which is [7] when
    [run] returns with the running flag cleared. *)
Theorem div_mod_by_zero_pop_divisor_only :
  (iterations 2 (load_program div_program fresh)
     = Some (operands_pushed div_program) /\
   dispatch (mkInstruction DIV []) (operands_pushed div_program)
     = Thrown DivisionByZero (divisor_popped div_program) /\
   run (load_program div_program fresh)
     = Some (Normal 3 (halted_on div_program DivisionByZero))) /\
  (iterations 2 (load_program mod_program fresh)
     = Some (operands_pushed mod_program) /\
   dispatch (mkInstruction MOD []) (operands_pushed mod_program)
     = Thrown ModuloByZero (divisor_popped mod_program) /\
   run (load_program mod_program fresh)
     = Some (Normal 3 (halted_on mod_program ModuloByZero))).
Proof. split; split_and!; by vm_compute. Qed.

(** ** The program of [main] *)

(** C8: the program of [main], run on a fresh engine, writes the single
    line [15] to [cout] and nothing to [cerr]; [run] returns after nine
    dispatches with the running flag cleared and the operand stack
    empty. *)
Theorem main_program_prints_15 :
  exists w',
    run (load_program main_program fresh) = Some (Normal 9 w') /\
    cout w' = ("15" ++ endl)%string /\
    cerr w' = EmptyString /\
    running (engine w') = false /\
    stack (engine w') = [].
Proof. eexists. split; [by vm_compute|]. by vm_compute. Qed.

(** ** Memory *)

Lemma after_stores_lookup calls : forall (m : Memory.t) (a : Z),
  a ∉ calls.*1 -> after_stores calls m !! a = m !! a.
Proof.
  induction calls as [|[a' v'] calls IH]; intros m a Hnot; [done|].
  apply not_elem_of_cons in Hnot as [Hne Hnot]. simpl in *.
  unfold after_stores in *. simpl. rewrite IH by done.
  unfold Memory.store. destruct (Memory.out_of_bounds a'); [done|].
  by rewrite lookup_insert_ne.
Qed.

(** C9: for an address [a] within [0, 65535], [load(a)] returns 0,
    without error and without touching the memory, when no [store] since
    the memory was created had address [a]; and whatever was written
    before, to [a] or elsewhere, [store(a, v)] succeeds and [load(a)]
    then returns [v]. *)
Theorem memory_default_and_round_trip (a v : Z) (calls : list (Z * Z))
    (m : Memory.t) :
  (0 <= a <= 65535)%Z ->
  a ∉ calls.*1 ->
  Memory.load a (after_stores calls ∅) = Normal 0%Z (after_stores calls ∅) /\
  exists m', Memory.store a v m = Normal tt m' /\
             Memory.load a m' = Normal v m'.
Proof.
  intros Ha Hnot.
  assert (Memory.out_of_bounds a = false) as Hin.
  { unfold Memory.out_of_bounds, Memory.MAX_ADDRESS.
    apply orb_false_intro; apply Z.ltb_ge; lia. }
  split.
  - unfold Memory.load. rewrite Hin.
    by rewrite after_stores_lookup, lookup_empty.
  - exists (<[a := v]> m). unfold Memory.store, Memory.load.
    by rewrite Hin, lookup_insert_eq.
Qed.

Lemma memory_default_and_round_trip_witness :
  (Memory.load 42 (after_stores [(7, 1); (70000, 2); (7, 3)] ∅)
     = Normal 0 (after_stores [(7, 1); (70000, 2); (7, 3)] ∅))%Z /\
  exists m', Memory.store 42 9 {[ 42%Z := 5%Z ]} = Normal tt m' /\
             Memory.load 42 m' = Normal 9%Z m'.
Proof.
  apply (memory_default_and_round_trip 42 9
           [(7, 1); (70000, 2); (7, 3)]%Z {[ 42%Z := 5%Z ]}).
  - lia.
  - apply (bool_decide_unpack _). vm_compute. reflexivity.
Defined.

(** ** An error inside the loop *)

Lemma continuing_at w instr :
  running (engine w) = true ->
  program (engine w) !! pc (engine w) = Some instr ->
  continuing w = true.
Proof.
  intros Hr Hi. unfold continuing. rewrite Hr. simpl.
  apply Nat.ltb_lt. by eapply lookup_lt_Some.
Qed.

Lemma body_caught w instr e w1 :
  program (engine w) !! pc (engine w) = Some instr ->
  dispatch instr w = Thrown e w1 ->
  body w = Normal tt (advance (caught e w1)).
Proof. intros Hi Hd. unfold body, execute. by rewrite Hi, Hd. Qed.

Lemma body_normal w instr w1 :
  program (engine w) !! pc (engine w) = Some instr ->
  dispatch instr w = Normal tt w1 ->
  body w = Normal tt (advance w1).
Proof. intros Hi Hd. unfold body, execute. by rewrite Hi, Hd. Qed.

(** A run whose [n]+1st dispatch throws returns right after it. *)
Lemma run_caught n w0 w instr e w1 :
  iterations n w0 = Some w ->
  running (engine w) = true ->
  program (engine w) !! pc (engine w) = Some instr ->
  dispatch instr w = Thrown e w1 ->
  run w0 = Some (Normal (S n) (advance (caught e w1))).
Proof.
  intros Hn Hr Hi Hd.
  rewrite (iterations_run n w0 w Hn).
  rewrite (run_step w (advance (caught e w1)));
    [|by eapply continuing_at|by eapply body_caught].
  rewrite run_stop by done. simpl. do 2 f_equal. lia.
Qed.

(** ** Opcodes without a case *)

Lemma implemented_false op :
  implemented op = false <-> op ∈ [JMP; JZ; JNZ; CALL; RET].
Proof.
  split.
  - destruct op; (done || intros _; set_solver).
  - intros H. repeat (apply elem_of_cons in H as [->|H]; [done|]).
    by apply elem_of_nil in H.
Qed.

Lemma dispatch_unimplemented instr w :
  implemented (opcode instr) = false ->
  dispatch instr w = Thrown UnknownInstruction w.
Proof. unfold dispatch. by destruct (opcode instr). Qed.

(** C6: an instruction whose opcode has no case in the switch (that is
    JMP, JZ, JNZ, CALL or RET), found at index [i] by a running engine,
    raises UnknownInstruction without any other effect; [execute] clears
    the running flag and writes one diagnostic line, which carries the
    index [i]; [run] returns right after this dispatch. *)
Theorem unimplemented_opcode_halts (w : World) (i : nat) (instr : Instruction) :
  implemented (opcode instr) = false ->
  running (engine w) = true ->
  pc (engine w) = i ->
  program (engine w) !! i = Some instr ->
  opcode instr ∈ [JMP; JZ; JNZ; CALL; RET] /\
  dispatch instr w = Thrown UnknownInstruction w /\
  (exists w',
     execute instr w = Normal tt w' /\
     running (engine w') = false /\
     cerr w' = (cerr w ++ "Runtime error at PC=" ++ show_size i
                  ++ ": Unknown instruction" ++ endl)%string /\
     cout w' = cout w /\
     stack (engine w') = stack (engine w) /\
     memory (engine w') = memory (engine w) /\
     run w = Some (Normal 1 (advance w'))).
Proof.
  intros Hop Hr Hpc Hi. subst i. split; [by apply implemented_false|].
  pose proof (dispatch_unimplemented instr w Hop) as Hd.
  split; [done|]. exists (caught UnknownInstruction w).
  split_and!; try done.
  - unfold execute. by rewrite Hd.
  - by apply (run_caught 0 w w instr).
Qed.

Lemma unimplemented_opcode_halts_witness :
  JMP ∈ [JMP; JZ; JNZ; CALL; RET] /\
  dispatch (mkInstruction JMP [0%Z]) at_jump
    = Thrown UnknownInstruction at_jump /\
  (exists w',
     execute (mkInstruction JMP [0%Z]) at_jump = Normal tt w' /\
     running (engine w') = false /\
     cerr w' = (cerr at_jump ++ "Runtime error at PC=" ++ show_size 1
                  ++ ": Unknown instruction" ++ endl)%string /\
     cout w' = cout at_jump /\
     stack (engine w') = stack (engine at_jump) /\
     memory (engine w') = memory (engine at_jump) /\
     run at_jump = Some (Normal 1 (advance w'))).
Proof.
  apply (unimplemented_opcode_halts at_jump 1 (mkInstruction JMP [0%Z]));
    reflexivity.
Defined.

(** C10: when the instruction at index [i], reached by a running engine
    after [n] completed iterations of the loop, raises an error, [run]
    returns after that one further dispatch with the program counter at
    [i + 1] and the running flag cleared, while the one line added to
    [cerr] reads [Runtime error at PC=], the index [i] in decimal, a
    colon and a space, and the message of the error. *)
Theorem error_leaves_pc_one_past (w0 w w1 : World) (n i : nat)
    (instr : Instruction) (e : runtime_error) :
  iterations n w0 = Some w ->
  running (engine w) = true ->
  pc (engine w) = i ->
  program (engine w) !! i = Some instr ->
  dispatch instr w = Thrown e w1 ->
  i < length (program (engine w)) /\
  exists w',
    run w0 = Some (Normal (S n) w') /\
    pc (engine w') = i + 1 /\
    running (engine w') = false /\
    cerr w' = (cerr w ++ "Runtime error at PC=" ++ show_size i ++ ": "
                 ++ what e ++ endl)%string.
Proof.
  intros Hn Hr Hpc Hi Hd. subst i.
  split; [by eapply lookup_lt_Some|].
  exists (advance (caught e w1)).
  pose proof (keeps_dispatch instr w) as Hk. rewrite Hd in Hk.
  destruct Hk as (_ & Hpc & _ & Herr).
  split_and!.
  - by eapply run_caught.
  - simpl. rewrite Hpc. lia.
  - done.
  - simpl. by rewrite Hpc, Herr.
Qed.

Lemma error_leaves_pc_one_past_witness :
  2 < length (program (engine (operands_pushed div_program))) /\
  exists w',
    run (load_program div_program fresh) = Some (Normal 3 w') /\
    pc (engine w') = 2 + 1 /\
    running (engine w') = false /\
    cerr w' = (cerr (operands_pushed div_program)
                 ++ "Runtime error at PC=2: Division by zero" ++ endl)%string.
Proof.
  apply (error_leaves_pc_one_past (load_program div_program fresh)
           (operands_pushed div_program) (divisor_popped div_program)
           2 2 (mkInstruction DIV []) DivisionByZero);
    reflexivity.
Defined.

(** ** Filling the operand stack *)

Lemma push_ok v (s : Stack.t) :
  Stack.size s < Stack.MAX_SIZE -> Stack.push v s = Normal tt (v :: s).
Proof.
  intros H. unfold Stack.push.
  by destruct (Nat.leb_spec Stack.MAX_SIZE (Stack.size s)); [lia|].
Qed.

Lemma push_overflow v (s : Stack.t) :
  Stack.MAX_SIZE <= Stack.size s -> Stack.push v s = Thrown StackOverflow s.
Proof.
  intros H. unfold Stack.push.
  by destruct (Nat.leb_spec Stack.MAX_SIZE (Stack.size s)); [|lia].
Qed.

Lemma dispatch_push_ok instr v w :
  opcode instr = PUSH -> operands instr !! 0 = Some v ->
  Stack.size (stack (engine w)) < Stack.MAX_SIZE ->
  dispatch instr w
    = Normal tt (with_engine (set_stack (v :: stack (engine w))) w).
Proof.
  intros Hop Hv Hsz. unfold dispatch, bind, operand, on_stack.
  by rewrite Hop, Hv, push_ok.
Qed.

Lemma dispatch_push_overflow instr v w :
  opcode instr = PUSH -> operands instr !! 0 = Some v ->
  Stack.MAX_SIZE <= Stack.size (stack (engine w)) ->
  dispatch instr w = Thrown StackOverflow w.
Proof.
  intros Hop Hv Hsz. unfold dispatch, bind, operand, on_stack.
  by rewrite Hop, Hv, push_overflow, set_stack_same.
Qed.

Lemma iterations_pushes vs : forall w,
  running (engine w) = true ->
  (forall j v, vs !! j = Some v ->
     program (engine w) !! (pc (engine w) + j) = Some (mkInstruction PUSH [v])) ->
  Stack.size (stack (engine w)) + length vs <= Stack.MAX_SIZE ->
  iterations (length vs) w = Some (pushed vs w).
Proof.
  induction vs as [|v vs IH]; intros w Hr Hprog Hsz.
  - simpl. f_equal. destruct w as [[] ? ?].
    unfold pushed, with_engine, set_pc, set_stack. simpl.
    by rewrite Nat.add_0_r.
  - simpl in *.
    pose proof (Hprog 0 v eq_refl) as Hi. rewrite Nat.add_0_r in Hi.
    rewrite (continuing_at w _ Hr Hi).
    rewrite (body_normal w _ _ Hi
               (dispatch_push_ok (mkInstruction PUSH [v]) v w
                  eq_refl eq_refl ltac:(lia))).
    rewrite IH.
    + f_equal. destruct w as [[] ? ?].
      unfold pushed, advance, with_engine, set_pc, set_stack. simpl.
      rewrite reverse_cons, <- app_assoc. simpl.
      by rewrite Nat.add_succ_r.
    + done.
    + intros j v' Hj. simpl. rewrite <- Nat.add_succ_r. by apply Hprog.
    + simpl. unfold Stack.size in *. simpl. lia.
Qed.

(** C7: a program of 1025 PUSH instructions, run on a fresh engine: the
    first 1024 pushes succeed, the 1025th (index 1024) raises
    StackOverflow, the only error reported; [run] returns with exactly
    1024 values on the operand stack and the running flag cleared.  On a
    stack within its capacity, [push] throws exactly when the size equals
    the capacity 1024. *)
Theorem push_1025_overflows (vs : list Z) (v : Z) (s : Stack.t) :
  length vs = 1025 ->
  Stack.size s <= Stack.MAX_SIZE ->
  (exists w1024 w',
     iterations 1024 (load_program (pushes vs) fresh) = Some w1024 /\
     running (engine w1024) = true /\
     cerr w1024 = EmptyString /\
     run (load_program (pushes vs) fresh) = Some (Normal 1025 w') /\
     cerr w' = diagnostic 1024 StackOverflow /\
     stack (engine w') = reverse (take 1024 vs) /\
     Stack.size (stack (engine w')) = 1024 /\
     running (engine w') = false) /\
  (Stack.push v s = Thrown StackOverflow s <-> Stack.size s = 1024).
Proof.
  intros Hlen Hcap. split.
  - set (w0 := load_program (pushes vs) fresh).
    assert (length (take 1024 vs) = 1024) as Htake
      by (rewrite length_take; lia).
    assert (iterations 1024 w0 = Some (pushed (take 1024 vs) w0)) as Hit.
    { rewrite <- Htake at 1. apply iterations_pushes; [done| |].
      - intros j x Hj. simpl. unfold pushes. rewrite list_lookup_fmap.
        apply lookup_take_Some in Hj as [-> _]. done.
      - simpl. unfold Stack.size, Stack.MAX_SIZE. simpl. lia. }
    destruct (lookup_lt_is_Some_2 vs 1024 ltac:(lia)) as [x Hx].
    exists (pushed (take 1024 vs) w0),
      (advance (caught StackOverflow (pushed (take 1024 vs) w0))).
    split_and!; try done.
    + apply (run_caught 1024 w0 (pushed (take 1024 vs) w0)
               (mkInstruction PUSH [x])); try done.
      * simpl. rewrite Htake. unfold pushes.
        by rewrite list_lookup_fmap, Hx.
      * apply (dispatch_push_overflow _ x); try done.
        simpl. unfold Stack.size. rewrite length_app, length_reverse, Htake.
        unfold Stack.MAX_SIZE. lia.
    + simpl. by rewrite Htake.
    + simpl. by rewrite app_nil_r.
    + simpl. unfold Stack.size.
      by rewrite length_app, length_reverse, Htake.
  - unfold Stack.push, Stack.MAX_SIZE in *.
    destruct (Nat.leb_spec 1024 (Stack.size s)); split; (done || lia).
Qed.

Lemma push_1025_overflows_witness :
  (exists w1024 w',
     iterations 1024 (load_program (pushes (replicate 1025 3%Z)) fresh)
       = Some w1024 /\
     running (engine w1024) = true /\
     cerr w1024 = EmptyString /\
     run (load_program (pushes (replicate 1025 3%Z)) fresh)
       = Some (Normal 1025 w') /\
     cerr w' = diagnostic 1024 StackOverflow /\
     stack (engine w') = reverse (take 1024 (replicate 1025 3%Z)) /\
     Stack.size (stack (engine w')) = 1024 /\
     running (engine w') = false) /\
  (Stack.push 4%Z [1%Z; 2%Z] = Thrown StackOverflow [1%Z; 2%Z] <->
   Stack.size [1%Z; 2%Z] = 1024).
Proof.
  apply (push_1025_overflows (replicate 1025 3%Z) 4%Z [1%Z; 2%Z]).
  - vm_compute. reflexivity.
  - vm_compute. lia.
Defined.

(** ** Loading a program *)

Lemma drain_empty (s : Stack.t) : drain s = [].
Proof. by induction s. Qed.

Lemma in_bounds (a : Z) :
  (0 <= a <= 65535)%Z -> Memory.out_of_bounds a = false.
Proof.
  intros Ha. unfold Memory.out_of_bounds, Memory.MAX_ADDRESS.
  apply orb_false_intro; apply Z.ltb_ge; lia.
Qed.

Lemma dispatch_store_ok instr a v rest w :
  opcode instr = STORE -> operands instr !! 0 = Some a ->
  stack (engine w) = v :: rest ->
  Memory.out_of_bounds a = false ->
  dispatch instr w
    = Normal tt
        (with_engine (set_memory (<[a := v]> (memory (engine w))))
           (with_engine (set_stack rest) w)).
Proof.
  intros Hop Ha Hs Hin.
  unfold dispatch, bind, operand, on_stack, on_memory, Stack.pop, Memory.store.
  rewrite Hop, Ha, Hs. simpl. by rewrite Hin.
Qed.

Lemma dispatch_load_ok instr a v w :
  opcode instr = LOAD -> operands instr !! 0 = Some a ->
  Memory.out_of_bounds a = false ->
  memory (engine w) !! a = Some v ->
  Stack.size (stack (engine w)) < Stack.MAX_SIZE ->
  dispatch instr w
    = Normal tt (with_engine (set_stack (v :: stack (engine w))) w).
Proof.
  intros Hop Ha Hin Hv Hsz.
  unfold dispatch, bind, operand, on_stack, on_memory, Memory.load.
  rewrite Hop, Ha, Hin, Hv. simpl. rewrite push_ok by done.
  by destruct w as [[] ? ?].
Qed.

Lemma run_push_store (a v : Z) :
  Memory.out_of_bounds a = false ->
  run (load_program [mkInstruction PUSH [v]; mkInstruction STORE [a]] fresh)
    = Some (Normal 2 (stored a v)).
Proof.
  intros Hin.
  set (p := [mkInstruction PUSH [v]; mkInstruction STORE [a]]).
  set (w1 := mkWorld (mkEngine p [v] ∅ [] 1 true) EmptyString EmptyString).
  rewrite (run_step _ w1); [|done|].
  2:{ by rewrite (body_normal _ (mkInstruction PUSH [v])
                    (with_engine (set_stack [v]) (load_program p fresh))). }
  rewrite (run_step w1 (stored a v)); [|done|].
  2:{ rewrite (body_normal w1 (mkInstruction STORE [a])
                 (with_engine (set_memory (<[a := v]> (memory (engine w1))))
                    (with_engine (set_stack []) w1))); [done|done|].
      by apply dispatch_store_ok. }
  by rewrite run_stop.
Qed.

Lemma run_load_after_store (a v : Z) :
  Memory.out_of_bounds a = false ->
  exists w2,
    run (load_program [mkInstruction LOAD [a]] (stored a v))
      = Some (Normal 1 w2) /\
    stack (engine w2) = [v].
Proof.
  intros Hin.
  set (w0 := load_program [mkInstruction LOAD [a]] (stored a v)).
  exists (advance (with_engine (set_stack [v]) w0)).
  split; [|done].
  rewrite (run_step w0 (advance (with_engine (set_stack [v]) w0))); [|done|].
  - by rewrite run_stop.
  - apply (body_normal w0 (mkInstruction LOAD [a])); [done|].
    apply (dispatch_load_ok _ a v w0); try done.
    + simpl. apply lookup_singleton_eq.
    + simpl. unfold Stack.size, Stack.MAX_SIZE. simpl. lia.
Qed.

(** C5: [load_program(p)], in any engine state, installs [p], sets the
    program counter to 0 and the running flag to true and empties the call
    stack; the operand stack and the memory are what they were.  So a
    value [v] stored at an address [a] by a first program is loaded from
    [a] by a second program loaded into the same engine. *)
Theorem load_program_keeps_stack_and_memory (w : World)
    (p : list Instruction) (a v : Z) :
  (0 <= a <= 65535)%Z ->
  (program (engine (load_program p w)) = p /\
   pc (engine (load_program p w)) = 0 /\
   running (engine (load_program p w)) = true /\
   call_stack (engine (load_program p w)) = [] /\
   stack (engine (load_program p w)) = stack (engine w) /\
   memory (engine (load_program p w)) = memory (engine w)) /\
  exists w1 w2,
    run (load_program [mkInstruction PUSH [v]; mkInstruction STORE [a]] fresh)
      = Some (Normal 2 w1) /\
    pc (engine (load_program [mkInstruction LOAD [a]] w1)) = 0 /\
    running (engine (load_program [mkInstruction LOAD [a]] w1)) = true /\
    run (load_program [mkInstruction LOAD [a]] w1) = Some (Normal 1 w2) /\
    stack (engine w2) = [v].
Proof.
  intros Ha. apply in_bounds in Ha. split.
  - split_and!; try done. simpl. apply drain_empty.
  - destruct (run_load_after_store a v Ha) as (w2 & Hrun & Hs).
    exists (stored a v), w2. split_and!; try done.
    by apply run_push_store.
Qed.

Lemma load_program_keeps_stack_and_memory_witness :
  (program (engine (load_program main_program (halted_on div_program DivisionByZero)))
     = main_program /\
   pc (engine (load_program main_program (halted_on div_program DivisionByZero)))
     = 0 /\
   running (engine (load_program main_program (halted_on div_program DivisionByZero)))
     = true /\
   call_stack (engine (load_program main_program (halted_on div_program DivisionByZero)))
     = [] /\
   stack (engine (load_program main_program (halted_on div_program DivisionByZero)))
     = stack (engine (halted_on div_program DivisionByZero)) /\
   memory (engine (load_program main_program (halted_on div_program DivisionByZero)))
     = memory (engine (halted_on div_program DivisionByZero))) /\
  exists w1 w2,
    run (load_program [mkInstruction PUSH [9%Z]; mkInstruction STORE [42%Z]] fresh)
      = Some (Normal 2 w1) /\
    pc (engine (load_program [mkInstruction LOAD [42%Z]] w1)) = 0 /\
    running (engine (load_program [mkInstruction LOAD [42%Z]] w1)) = true /\
    run (load_program [mkInstruction LOAD [42%Z]] w1) = Some (Normal 1 w2) /\
    stack (engine w2) = [9%Z].
Proof.
  apply (load_program_keeps_stack_and_memory
           (halted_on div_program DivisionByZero) main_program 42 9).
  lia.
Defined.

(** ** Where [run] stops *)

Lemma run_loop_bound fuel : forall w k w',
  run_loop fuel w = Some (Normal k w') ->
  pc (engine w) <= length (program (engine w)) ->
  pc (engine w') <= length (program (engine w')).
Proof.
  induction fuel as [|fuel IH]; intros w k w' Hr Hle.
  - simpl in Hr. destruct (continuing w); [done|]. by injection Hr as _ <-.
  - destruct (continuing w) eqn:Hc.
    + rewrite run_loop_S in Hr by done.
      destruct (body w) as [? w1| |] eqn:Hb; [|done..].
      destruct (run_loop fuel w1) as [[k1 w2| |]|] eqn:H1; simplify_eq/=.
      apply (IH w1 k1 w' H1).
      apply body_keeps in Hb as [-> ->].
      unfold continuing in Hc. apply andb_prop in Hc as [_ Hc].
      apply Nat.ltb_lt in Hc. lia.
    + rewrite run_loop_stop in Hr by done. by injection Hr as _ <-.
Qed.

Lemma run_final_pc p w0 k w' :
  run (load_program p w0) = Some (Normal k w') ->
  program (engine w') = p /\
  pc (engine w') = k /\
  ((pc (engine w') < length p /\ running (engine w') = false) \/
   pc (engine w') = length p).
Proof.
  intros Hrun. unfold run in Hrun.
  pose proof (run_loop_final _ _ _ _ Hrun) as (Hp & Hpc & Hstop).
  pose proof (run_loop_bound _ _ _ _ Hrun ltac:(simpl; lia)) as Hle.
  simpl in Hp, Hpc. rewrite Hp in Hle. split_and!; [done..|].
  unfold continuing in Hstop. rewrite Hp in Hstop.
  apply andb_false_iff in Hstop as [Hr|Hlt].
  - destruct (decide (pc (engine w') = length p)); [by right|].
    left. split; [lia|done].
  - apply Nat.ltb_ge in Hlt. right. lia.
Qed.

(** C2: when [run], called on an engine into which the program [p] has
    just been loaded, returns, the program is still [p] and the program
    counter is either an index of [p], with the running flag cleared, or
    the length of [p]. *)
Theorem pc_after_run (p : list Instruction) (w0 w' : World) (k : nat) :
  run (load_program p w0) = Some (Normal k w') ->
  program (engine w') = p /\
  ((0 <= pc (engine w') < length p /\ running (engine w') = false) \/
   pc (engine w') = length p).
Proof.
  intros Hrun.
  destruct (run_final_pc p w0 k w' Hrun) as (Hp & _ & [[Hlt Hr]|Hend]).
  - split; [done|]. left. split; [lia|done].
  - split; [done|]. by right.
Qed.

Lemma pc_after_run_witness :
  program (engine after_jump) = jump_program /\
  ((0 <= pc (engine after_jump) < length jump_program /\
    running (engine after_jump) = false) \/
   pc (engine after_jump) = length jump_program).
Proof.
  apply (pc_after_run jump_program fresh after_jump 2).
  vm_compute. reflexivity.
Defined.

(** ** Containment of errors, and termination *)

Lemma raisable_true e :
  raisable e = true <->
  e ∈ [StackOverflow; StackUnderflow; DivisionByZero; ModuloByZero;
       AddressOutOfBounds; UnknownInstruction].
Proof.
  split.
  - destruct e; (done || intros _; set_solver).
  - intros H. repeat (apply elem_of_cons in H as [->|H]; [done|]).
    by apply elem_of_nil in H.
Qed.

Lemma run_returns p w0 :
  Forall well_formed p ->
  ~ reaches_division_overflow (load_program p w0) ->
  exists k w',
    run (load_program p w0) = Some (Normal k w') /\ k <= length p.
Proof.
  intros Hwf Hnot. unfold run. simpl. rewrite Nat.sub_0_r.
  apply run_loop_returns; simpl; [done|done|lia].
Qed.

(** How a run over well-formed instructions ends. *)
Lemma run_loop_outcome fuel : forall w,
  Forall well_formed (program (engine w)) ->
  length (program (engine w)) - pc (engine w) <= fuel ->
  (exists k w', run_loop fuel w = Some (Normal k w')) \/
  (run_loop fuel w = Some Undefined /\ reaches_division_overflow w).
Proof.
  induction fuel as [|fuel IH]; intros w Hwf Hle.
  - destruct (run_loop_enough 0 w Hle) as [r Hr]. simpl in *.
    destruct (continuing w); [done|]. left. by exists 0, w.
  - destruct (continuing w) eqn:Hc.
    2:{ rewrite run_loop_stop by done. left. by exists 0, w. }
    rewrite run_loop_S by done.
    pose proof Hc as Hc'. unfold continuing in Hc'.
    apply andb_prop in Hc' as [Hr Hlt].
    apply Nat.ltb_lt, lookup_lt_is_Some in Hlt as [instr Hi].
    assert (well_formed instr) as Hw by (eapply Forall_lookup_1; eauto).
    pose proof (dispatch_outcome instr w Hw) as Hd.
    destruct (body w) as [[] w1|e w1|] eqn:Hb.
    + pose proof (reaches_later w w1 Hc Hb) as Hlater.
      apply body_keeps in Hb as [Hp Hpc].
      destruct (IH w1) as [(k & w' & ->)|[-> Hreach]];
        [by rewrite Hp|rewrite Hp, Hpc; lia|..].
      * left. by exists (S k), w'.
      * right. split; [done|]. by apply Hlater.
    + by destruct (body_never_throws w e w1).
    + right. split; [done|]. exists 0, w, instr. split_and!; try done.
      unfold body, execute in Hb. rewrite Hi in Hb.
      by destruct (dispatch instr w).
Qed.

Lemma iterations_program n : forall w0 w,
  iterations n w0 = Some w -> program (engine w) = program (engine w0).
Proof.
  induction n as [|n IH]; intros w0 w H; simpl in H.
  - by injection H as <-.
  - destruct (continuing w0); [|done].
    destruct (body w0) as [[] w1| |] eqn:Hb; [|done..].
    apply IH in H. apply body_keeps in Hb as [Hp _]. congruence.
Qed.

(** A program that never divides cannot overflow a quotient. *)
Lemma no_division_no_overflow w0 :
  Forall (fun instr => is_division (opcode instr) = false)
    (program (engine w0)) ->
  ~ reaches_division_overflow w0.
Proof.
  intros Hnone (n & w & instr & Hn & _ & Hi & Hdiv & _).
  apply iterations_program in Hn. rewrite Hn in Hi.
  eapply Forall_lookup_1 in Hnone; [|done]. simpl in Hnone. congruence.
Qed.

(** C3: the code does not contain every failure of a dispatch.  The
    program [PUSH INT_MIN; PUSH -1; DIV] carries every operand its
    opcodes read; its DIV finds a non-zero divisor, so the one guard of
    the source lets it pass, and then divides [INT_MIN] by [-1].  No
    [runtime_error] is thrown, so the [catch] handler has nothing to
    catch: neither the dispatch, nor [execute], nor [run] returns.  The
    same holds of [PUSH INT_MIN; PUSH -1; MOD]. *)
Theorem division_overflow_escapes_catch :
  (Forall well_formed overflow_div_program /\
   iterations 2 (load_program overflow_div_program fresh)
     = Some (overflow_operands_pushed overflow_div_program) /\
   dispatch (mkInstruction DIV []) (overflow_operands_pushed overflow_div_program)
     = Undefined /\
   execute (mkInstruction DIV []) (overflow_operands_pushed overflow_div_program)
     = Undefined /\
   run (load_program overflow_div_program fresh) = Some Undefined) /\
  (Forall well_formed overflow_mod_program /\
   iterations 2 (load_program overflow_mod_program fresh)
     = Some (overflow_operands_pushed overflow_mod_program) /\
   dispatch (mkInstruction MOD []) (overflow_operands_pushed overflow_mod_program)
     = Undefined /\
   execute (mkInstruction MOD []) (overflow_operands_pushed overflow_mod_program)
     = Undefined /\
   run (load_program overflow_mod_program fresh) = Some Undefined).
Proof.
  split; split_and!; try (by vm_compute);
    repeat (apply Forall_cons; split; [unfold well_formed; simpl; lia|]);
    apply Forall_nil_2.
Qed.

(** C4, as stated, fails: on the one-instruction program [PUSH] without
    an operand the dispatch reads [operands[0]] out of range, and [run]
    reaches none of its terminal states. *)
Lemma push_without_operand_does_not_return :
  ~ returns_within_program [mkInstruction PUSH []].
Proof. intros (k & w' & Hrun & _). vm_compute in Hrun. done. Qed.

(** C4, amended: for a loaded program whose instructions all carry the
    operands their opcode reads, and whose run does not come to divide
    [INT_MIN] by [-1], [run] returns.  Each turn of the loop dispatches
    one instruction and adds exactly one to the program counter, which
    nothing else changes; so [run] returns after [k] dispatches with the
    program counter at [k], for some [k] no larger than the length of the
    program, in a state where the running flag is cleared or the program
    counter is the length of the program. *)
Theorem run_terminates_within_program (p : list Instruction) (w0 : World) :
  Forall well_formed p ->
  ~ reaches_division_overflow (load_program p w0) ->
  (forall w w1, body w = Normal tt w1 ->
     program (engine w1) = program (engine w) /\
     pc (engine w1) = S (pc (engine w))) /\
  exists k w',
    run (load_program p w0) = Some (Normal k w') /\
    k <= length p /\
    pc (engine w') = k /\
    (running (engine w') = false \/ pc (engine w') = length p) /\
    forall fuel, length p <= fuel ->
      run_loop fuel (load_program p w0) = Some (Normal k w').
Proof.
  intros Hwf Hnot. split; [intros w w1; apply body_keeps|].
  destruct (run_returns p w0 Hwf Hnot) as (k & w' & Hrun & Hk).
  exists k, w'.
  destruct (run_final_pc p w0 k w' Hrun) as (_ & Hpc & Hend).
  split_and!; try done.
  - tauto.
  - intros fuel Hfuel. unfold run in Hrun. simpl in Hrun.
    apply (run_loop_more _ _ _ fuel Hrun). lia.
Qed.

Lemma run_terminates_within_program_witness :
  (forall w w1, body w = Normal tt w1 ->
     program (engine w1) = program (engine w) /\
     pc (engine w1) = S (pc (engine w))) /\
  exists k w',
    run (load_program div_program fresh) = Some (Normal k w') /\
    k <= length div_program /\
    pc (engine w') = k /\
    (running (engine w') = false \/ pc (engine w') = length div_program) /\
    forall fuel, length div_program <= fuel ->
      run_loop fuel (load_program div_program fresh) = Some (Normal k w').
Proof.
  apply (run_terminates_within_program div_program fresh).
  - repeat (apply Forall_cons; split; [unfold well_formed; simpl; lia|]).
    apply Forall_nil_2.
  - intros (n & w & instr & Hn & Hr & Hi & Hdiv & rest & Hs).
    do 4 (destruct n as [|n];
          [vm_compute in Hn; injection Hn as <-;
           first [discriminate Hs | discriminate Hr]|]).
    vm_compute in Hn. discriminate Hn.
Defined.

(** * Further properties of the source *)

Arguments Stack.push : simpl never.

(** ** class Stack *)

Lemma push_within v : preserves within_capacity (Stack.push v).
Proof.
  intros s Hs. unfold Stack.push, within_capacity in *.
  destruct (Nat.leb_spec Stack.MAX_SIZE (Stack.size s)); [done|].
  unfold Stack.size in *. simpl. lia.
Qed.

Lemma pop_within : preserves within_capacity Stack.pop.
Proof.
  intros [|v s] Hs; [done|]. unfold within_capacity, Stack.size in *.
  simpl in *. lia.
Qed.

Lemma peek_within : preserves within_capacity Stack.peek.
Proof. by intros [|v s] Hs. Qed.

Lemma preserves_bind {St A B} (I : St -> Prop) (m : M St A) (k : A -> M St B) :
  preserves I m -> (forall a, preserves I (k a)) -> preserves I (bind m k).
Proof.
  intros Hm Hk s Hs. unfold bind. specialize (Hm s Hs).
  destruct (m s) as [a s1|e s1|]; [|done..]. by apply Hk.
Qed.

Lemma preserves_ret {St A} (I : St -> Prop) (a : A) : preserves I (ret a).
Proof. by intros s Hs. Qed.

Lemma preserves_throw {St A} (I : St -> Prop) e : preserves I (@throw St A e).
Proof. by intros s Hs. Qed.

Lemma preserves_undefined {St A} (I : St -> Prop) :
  preserves I (@undefined St A).
Proof. by intros s Hs. Qed.

Lemma dup_within : preserves within_capacity Stack.dup.
Proof.
  intros s Hs. unfold Stack.dup. destruct (Stack.empty s); [done|].
  revert s Hs. apply preserves_bind; [apply peek_within|].
  intros v. apply push_within.
Qed.

Lemma swap_within : preserves within_capacity Stack.swap.
Proof.
  intros s Hs. unfold Stack.swap. destruct (_ <? _); [done|].
  revert s Hs.
  repeat (apply preserves_bind; [|intros ?]);
    first [apply pop_within | apply push_within].
Qed.

Lemma after_call_within s c :
  within_capacity s -> within_capacity (after_call s c).
Proof.
  intros Hs. destruct c as [v| | | |]; simpl.
  - pose proof (push_within v s Hs). by destruct (Stack.push v s).
  - pose proof (pop_within s Hs). by destruct (Stack.pop s).
  - pose proof (peek_within s Hs). by destruct (Stack.peek s).
  - pose proof (dup_within s Hs). by destruct (Stack.dup s).
  - pose proof (swap_within s Hs). by destruct (Stack.swap s).
Qed.

(** X1: whatever member functions are called on a stack that starts
    empty, and whether they return or throw, the stack never holds more
    than 1024 values. *)
Theorem stack_never_exceeds_capacity (cs : list stack_call) :
  Stack.size (after_calls cs []) <= 1024.
Proof.
  assert (forall s, within_capacity s -> within_capacity (after_calls cs s))
    as H.
  { induction cs as [|c cs IH]; intros s Hs; [done|].
    simpl. apply IH. by apply after_call_within. }
  apply (H []). unfold within_capacity, Stack.size, Stack.MAX_SIZE. simpl. lia.
Qed.

(** X2: on a stack with room left, [push(v)] followed by [pop()] returns
    [v] and leaves the stack as it was. *)
Theorem push_then_pop (v : Z) (s : Stack.t) :
  Stack.size s < Stack.MAX_SIZE ->
  (Stack.push v ;; Stack.pop) s = Normal v s.
Proof. intros H. unfold bind. by rewrite push_ok. Qed.

Lemma push_then_pop_witness :
  (Stack.push 5%Z ;; Stack.pop) [1%Z; 2%Z] = Normal 5%Z [1%Z; 2%Z].
Proof.
  apply (push_then_pop 5%Z [1%Z; 2%Z]).
  unfold Stack.size, Stack.MAX_SIZE. simpl. lia.
Defined.

(** X3: on a stack within its capacity, [swap()] exchanges the two top
    values and leaves the rest, and a second [swap()] undoes the first;
    it never overflows.  With fewer than two values it throws Stack
    Underflow and leaves the stack as it was. *)
Theorem swap_exchanges_top_two (a b : Z) (rest s : Stack.t) :
  Stack.size (a :: b :: rest) <= Stack.MAX_SIZE ->
  Stack.size s < 2 ->
  Stack.swap (a :: b :: rest) = Normal tt (b :: a :: rest) /\
  (Stack.swap ;; Stack.swap) (a :: b :: rest) = Normal tt (a :: b :: rest) /\
  Stack.swap s = Thrown StackUnderflow s.
Proof.
  intros Hcap Hs.
  assert (forall x y, Stack.swap (x :: y :: rest) = Normal tt (y :: x :: rest))
    as Hswap.
  { intros x y. unfold Stack.swap, bind, Stack.pop. simpl.
    unfold Stack.size in Hcap. simpl in Hcap.
    rewrite push_ok by (unfold Stack.size; lia).
    rewrite push_ok by (unfold Stack.size; simpl; lia). done. }
  split_and!.
  - apply Hswap.
  - unfold bind. by rewrite !Hswap.
  - unfold Stack.swap. by destruct (Nat.ltb_spec (Stack.size s) 2); [|lia].
Qed.

Lemma swap_exchanges_top_two_witness :
  Stack.swap [1%Z; 2%Z; 3%Z] = Normal tt [2%Z; 1%Z; 3%Z] /\
  (Stack.swap ;; Stack.swap) [1%Z; 2%Z; 3%Z] = Normal tt [1%Z; 2%Z; 3%Z] /\
  Stack.swap [7%Z] = Thrown StackUnderflow [7%Z].
Proof.
  apply (swap_exchanges_top_two 1%Z 2%Z [3%Z] [7%Z]).
  - unfold Stack.size, Stack.MAX_SIZE. simpl. lia.
  - unfold Stack.size. simpl. lia.
Defined.

(** X4: [dup()] on an empty stack throws Stack Underflow, on a full stack
    Stack Overflow, in both cases without changing the stack; otherwise
    it pushes a copy of the top value.  The Stack is empty error of
    [peek] never comes out of [dup]. *)
Theorem dup_cases (s : Stack.t) :
  Stack.dup s =
    match s with
    | [] => Thrown StackUnderflow s
    | top :: _ =>
        if (Stack.MAX_SIZE <=? Stack.size s)%nat then Thrown StackOverflow s
        else Normal tt (top :: s)
    end /\
  forall s', Stack.dup s <> Thrown EmptyStack s'.
Proof.
  assert (Stack.dup s =
    match s with
    | [] => Thrown StackUnderflow s
    | top :: _ =>
        if (Stack.MAX_SIZE <=? Stack.size s)%nat then Thrown StackOverflow s
        else Normal tt (top :: s)
    end) as H.
  { destruct s as [|top s]; [done|].
    unfold Stack.dup, bind, Stack.peek, Stack.push. simpl Stack.empty.
    cbv iota. done. }
  split; [done|]. intros s'. rewrite H.
  destruct s as [|top s]; [done|]. by destruct (_ <=? _)%nat.
Qed.

(** ** class Memory *)

Lemma memory_rejects_out_of_bounds_aux (a v : Z) (m : Memory.t) :
  (a < 0 \/ 65535 < a)%Z ->
  Memory.store a v m = Thrown AddressOutOfBounds m /\
  Memory.load a m = Thrown AddressOutOfBounds m.
Proof.
  intros Ha.
  assert (Memory.out_of_bounds a = true) as Hout.
  { unfold Memory.out_of_bounds, Memory.MAX_ADDRESS.
    apply orb_true_iff. destruct Ha; [left|right]; by apply Z.ltb_lt. }
  unfold Memory.store, Memory.load. by rewrite Hout.
Qed.

(** X5: [store] and [load] with an address below 0 or above 65535 throw
    Memory address out of bounds and leave the memory as it was. *)
Theorem memory_rejects_out_of_bounds (a v : Z) (m : Memory.t) :
  (a < 0 \/ 65535 < a)%Z ->
  Memory.store a v m = Thrown AddressOutOfBounds m /\
  Memory.load a m = Thrown AddressOutOfBounds m.
Proof. apply memory_rejects_out_of_bounds_aux. Qed.

Lemma memory_rejects_out_of_bounds_witness :
  Memory.store 65536 1 {[ 0%Z := 5%Z ]}
    = Thrown AddressOutOfBounds {[ 0%Z := 5%Z ]} /\
  Memory.load 65536 {[ 0%Z := 5%Z ]}
    = Thrown AddressOutOfBounds {[ 0%Z := 5%Z ]}.
Proof.
  apply (memory_rejects_out_of_bounds 65536 1 {[ 0%Z := 5%Z ]}). lia.
Defined.

(** X6: a successful [store(a, v)] changes what [load] returns at [a]
    only: at any other address [b], [load(b)] returns, or throws, the
    same before and after.  A second store to [a] replaces the first:
    the memory is the one the second store alone would have given. *)
Theorem store_changes_one_cell (a b v v2 : Z) (m m' : Memory.t) :
  a <> b ->
  Memory.store a v m = Normal tt m' ->
  match Memory.load b m, Memory.load b m' with
  | Normal x _, Normal y _ => x = y
  | Thrown e _, Thrown e' _ => e = e'
  | _, _ => False
  end /\
  Memory.store a v2 m' = Memory.store a v2 m.
Proof.
  intros Hne Hst. unfold Memory.store in *.
  destruct (Memory.out_of_bounds a) eqn:Ha; [done|].
  injection Hst as <-. split.
  - unfold Memory.load. destruct (Memory.out_of_bounds b); [done|].
    rewrite lookup_insert_ne by done. by destruct (m !! b).
  - by rewrite insert_insert_eq.
Qed.

Lemma store_changes_one_cell_witness :
  match Memory.load 1 {[ 1%Z := 8%Z ]}, Memory.load 1 (<[ 0%Z := 5%Z ]> {[ 1%Z := 8%Z ]}) with
  | Normal x _, Normal y _ => x = y
  | Thrown e _, Thrown e' _ => e = e'
  | _, _ => False
  end /\
  Memory.store 0 6 (<[ 0%Z := 5%Z ]> {[ 1%Z := 8%Z ]})
    = Memory.store 0 6 {[ 1%Z := 8%Z ]}.
Proof.
  apply (store_changes_one_cell 0 1 5 6 {[ 1%Z := 8%Z ]}
           (<[ 0%Z := 5%Z ]> {[ 1%Z := 8%Z ]})).
  - lia.
  - reflexivity.
Defined.

(** ** Dispatch on a stack that is too small *)

Lemma engine_push_ok w v :
  Stack.size (stack (engine w)) < Stack.MAX_SIZE ->
  on_stack (Stack.push v) w
    = Normal tt (with_engine (set_stack (v :: stack (engine w))) w).
Proof. intros Hs. unfold on_stack. by rewrite push_ok. Qed.

(** X7: dispatched on an empty operand stack, each of POP, ADD, SUB, MUL,
    DIV, MOD, DUP, SWAP, CMP, PRINT and STORE (with its operand) raises
    Stack Underflow and changes nothing; [execute] then clears the
    running flag. *)
Theorem underflow_on_empty_stack (instr : Instruction) (w : World) :
  opcode instr ∈ [POP; ADD; SUB; MUL; DIV; MOD; DUP; SWAP; CMP; PRINT; STORE] ->
  well_formed instr ->
  stack (engine w) = [] ->
  dispatch instr w = Thrown StackUnderflow w /\
  execute instr w = Normal tt (caught StackUnderflow w) /\
  running (engine (caught StackUnderflow w)) = false.
Proof.
  intros Hop Hwf Hs.
  assert (dispatch instr w = Thrown StackUnderflow w) as Hd.
  { destruct instr as [op ops]. unfold well_formed in Hwf. simpl in *.
    repeat (apply elem_of_cons in Hop as [->|Hop]);
      [..|by apply elem_of_nil in Hop];
      unfold dispatch, bind; simpl;
      try (by rewrite engine_pop_nil).
    - unfold on_stack, Stack.dup. rewrite Hs. simpl.
      by rewrite <- Hs, set_stack_same.
    - unfold on_stack, Stack.swap. rewrite Hs. simpl.
      by rewrite <- Hs, set_stack_same.
    - destruct ops as [|a ops]; [simpl in Hwf; lia|].
      unfold operand. simpl. by rewrite engine_pop_nil. }
  split_and!; [done| |done]. unfold execute. by rewrite Hd.
Qed.

Lemma underflow_on_empty_stack_witness :
  dispatch (mkInstruction STORE [3%Z]) (holding [])
    = Thrown StackUnderflow (holding []) /\
  execute (mkInstruction STORE [3%Z]) (holding [])
    = Normal tt (caught StackUnderflow (holding [])) /\
  running (engine (caught StackUnderflow (holding []))) = false.
Proof.
  apply (underflow_on_empty_stack (mkInstruction STORE [3%Z]) (holding [])).
  - apply (bool_decide_unpack _). vm_compute. reflexivity.
  - unfold well_formed. simpl. lia.
  - reflexivity.
Defined.

(** X8: dispatched on an operand stack that holds the single value [x],
    ADD, SUB, MUL and CMP raise Stack Underflow after [x] has been popped,
    and [x] is not put back; so do DIV and MOD when [x] is not zero, while
    for [x] zero they raise Division by zero and Modulo by zero; SWAP
    raises Stack Underflow and leaves [x] on the stack. *)
Theorem binary_opcode_on_one_value (op : OpCode) (ops : list Z) (x : Z)
    (w : World) :
  op ∈ [ADD; SUB; MUL; CMP] ->
  stack (engine w) = [x] ->
  dispatch (mkInstruction op ops) w
    = Thrown StackUnderflow (with_engine (set_stack []) w) /\
  dispatch (mkInstruction DIV ops) w
    = Thrown (if (x =? 0)%Z then DivisionByZero else StackUnderflow)
        (with_engine (set_stack []) w) /\
  dispatch (mkInstruction MOD ops) w
    = Thrown (if (x =? 0)%Z then ModuloByZero else StackUnderflow)
        (with_engine (set_stack []) w) /\
  dispatch (mkInstruction SWAP ops) w = Thrown StackUnderflow w.
Proof.
  intros Hop Hs.
  assert (on_stack Stack.pop (with_engine (set_stack []) w)
          = Thrown StackUnderflow (with_engine (set_stack []) w)) as Hnil
    by (by apply engine_pop_nil).
  split_and!.
  - repeat (apply elem_of_cons in Hop as [->|Hop]);
      [..|by apply elem_of_nil in Hop];
      unfold dispatch, bind; simpl;
      by rewrite (engine_pop_cons w x []), Hnil.
  - unfold dispatch, bind. simpl. rewrite (engine_pop_cons w x []) by done.
    destruct (x =? 0)%Z; [done|]. by rewrite Hnil.
  - unfold dispatch, bind. simpl. rewrite (engine_pop_cons w x []) by done.
    destruct (x =? 0)%Z; [done|]. by rewrite Hnil.
  - unfold dispatch, on_stack, Stack.swap. simpl. rewrite Hs. simpl.
    by rewrite <- Hs, set_stack_same.
Qed.

Lemma binary_opcode_on_one_value_witness :
  dispatch (mkInstruction ADD []) (holding [7%Z])
    = Thrown StackUnderflow (with_engine (set_stack []) (holding [7%Z])) /\
  dispatch (mkInstruction DIV []) (holding [7%Z])
    = Thrown (if (7 =? 0)%Z then DivisionByZero else StackUnderflow)
        (with_engine (set_stack []) (holding [7%Z])) /\
  dispatch (mkInstruction MOD []) (holding [7%Z])
    = Thrown (if (7 =? 0)%Z then ModuloByZero else StackUnderflow)
        (with_engine (set_stack []) (holding [7%Z])) /\
  dispatch (mkInstruction SWAP []) (holding [7%Z])
    = Thrown StackUnderflow (holding [7%Z]).
Proof.
  apply (binary_opcode_on_one_value ADD [] 7%Z (holding [7%Z])).
  - apply (bool_decide_unpack _). vm_compute. reflexivity.
  - reflexivity.
Defined.

(** ** Arithmetic and comparison *)

(** Two pops and one push, on a stack within its capacity. *)
Lemma pop_pop_push w a b rest (f : Z -> Z -> Z) :
  stack (engine w) = b :: a :: rest ->
  within_capacity (stack (engine w)) ->
  (let* y := on_stack Stack.pop in
   let* x := on_stack Stack.pop in
   on_stack (Stack.push (f x y))) w
  = Normal tt (with_engine (set_stack (f a b :: rest)) w).
Proof.
  intros Hs Hcap. unfold bind.
  rewrite (engine_pop_cons w b (a :: rest)) by done.
  rewrite (engine_pop_cons _ a rest) by done.
  rewrite engine_push_ok; [done|].
  unfold within_capacity in Hcap. rewrite Hs in Hcap.
  unfold Stack.size in *. simpl in *. lia.
Qed.

(** X9: with [b] on top of [a] on an operand stack within its capacity,
    ADD, SUB and MUL replace the two by [a + b], [a - b] and [a * b]
    reduced to 32 bits, the value pushed first being the left operand;
    the result is the exact one whenever that is an [int], and no stack
    error is raised. *)
Theorem arithmetic_on_two_values (a b : Z) (rest : Stack.t) (ops : list Z)
    (w : World) :
  stack (engine w) = b :: a :: rest ->
  within_capacity (stack (engine w)) ->
  dispatch (mkInstruction ADD ops) w
    = Normal tt (with_engine (set_stack (wrap (a + b) :: rest)) w) /\
  dispatch (mkInstruction SUB ops) w
    = Normal tt (with_engine (set_stack (wrap (a - b) :: rest)) w) /\
  dispatch (mkInstruction MUL ops) w
    = Normal tt (with_engine (set_stack (wrap (a * b) :: rest)) w) /\
  (is_int (a + b) -> wrap (a + b) = (a + b)%Z) /\
  (is_int (a - b) -> wrap (a - b) = (a - b)%Z) /\
  (is_int (a * b) -> wrap (a * b) = (a * b)%Z).
Proof.
  intros Hs Hcap. split_and!; try apply wrap_in_range.
  - apply (pop_pop_push w a b rest (fun x y => wrap (x + y))); done.
  - apply (pop_pop_push w a b rest (fun x y => wrap (x - y))); done.
  - apply (pop_pop_push w a b rest (fun x y => wrap (x * y))); done.
Qed.

Lemma arithmetic_on_two_values_witness :
  dispatch (mkInstruction ADD []) (holding [3%Z; 10%Z])
    = Normal tt (with_engine (set_stack (wrap (10 + 3) :: [])) (holding [3%Z; 10%Z])) /\
  dispatch (mkInstruction SUB []) (holding [3%Z; 10%Z])
    = Normal tt (with_engine (set_stack (wrap (10 - 3) :: [])) (holding [3%Z; 10%Z])) /\
  dispatch (mkInstruction MUL []) (holding [3%Z; 10%Z])
    = Normal tt (with_engine (set_stack (wrap (10 * 3) :: [])) (holding [3%Z; 10%Z])) /\
  (is_int (10 + 3) -> wrap (10 + 3) = (10 + 3)%Z) /\
  (is_int (10 - 3) -> wrap (10 - 3) = (10 - 3)%Z) /\
  (is_int (10 * 3) -> wrap (10 * 3) = (10 * 3)%Z).
Proof.
  apply (arithmetic_on_two_values 10 3 [] [] (holding [3%Z; 10%Z])).
  - reflexivity.
  - unfold within_capacity, Stack.size, Stack.MAX_SIZE. simpl. lia.
Defined.

Lemma quot_is_int a b :
  is_int a -> is_int b -> b <> 0%Z -> ~ (a = INT_MIN /\ b = (-1)%Z) ->
  is_int (Z.quot a b).
Proof.
  unfold is_int, INT_MIN, INT_MAX. intros Ha Hb Hb0 Hnot.
  destruct (decide (b = 1%Z)) as [->|H1]; [rewrite Z.quot_1_r; lia|].
  destruct (decide (b = (-1)%Z)) as [->|H2].
  { replace (-1)%Z with (- (1))%Z by done.
    rewrite Z.quot_opp_r, Z.quot_1_r by lia. lia. }
  assert (Z.abs (Z.quot a b) <= 2 ^ 30)%Z; [|lia].
  rewrite <- Z.quot_abs by done.
  transitivity (Z.quot (Z.abs a) 2).
  - apply Z.quot_le_compat_l; lia.
  - transitivity (Z.quot (2 ^ 31) 2); [|done].
    apply Z.quot_le_mono; lia.
Qed.

(** X10: with a non-zero [b] on top of [a], both [int]s and not the pair
    [INT_MIN], [-1], DIV replaces the two by the quotient [q] truncated
    towards zero and MOD by the remainder [r], which is zero or has the
    sign of the dividend [a]: [a = b * q + r] with [|r| < |b|]. *)
Theorem div_mod_on_two_values (a b : Z) (rest : Stack.t) (ops : list Z)
    (w : World) :
  stack (engine w) = b :: a :: rest ->
  within_capacity (stack (engine w)) ->
  is_int a -> is_int b -> b <> 0%Z ->
  ~ (a = INT_MIN /\ b = (-1)%Z) ->
  exists q r,
    dispatch (mkInstruction DIV ops) w
      = Normal tt (with_engine (set_stack (q :: rest)) w) /\
    dispatch (mkInstruction MOD ops) w
      = Normal tt (with_engine (set_stack (r :: rest)) w) /\
    a = (b * q + r)%Z /\
    (Z.abs r < Z.abs b)%Z /\
    (0 <= r * a)%Z /\
    (Z.abs q <= Z.abs a)%Z /\
    is_int q /\ is_int r.
Proof.
  intros Hs Hcap Ha Hb Hb0 Hnot.
  pose proof (quot_is_int a b Ha Hb Hb0 Hnot) as Hq.
  pose proof (Z.rem_bound_abs a b Hb0) as Hr.
  pose proof (Z.rem_sign_mul a b Hb0) as Hsign.
  assert (is_int (Z.rem a b)) as Hri.
  { unfold is_int, INT_MIN, INT_MAX in *. lia. }
  assert (Z.eqb b 0 = false) as Hb0' by (by apply Z.eqb_neq).
  assert (quotient_overflows a b = false) as Hov.
  { destruct (quotient_overflows a b) eqn:Hov; [|done].
    apply quotient_overflows_true in Hov. tauto. }
  exists (Z.quot a b), (Z.rem a b). split_and!; try done.
  - unfold dispatch, bind. simpl.
    rewrite (engine_pop_cons w b (a :: rest)) by done. rewrite Hb0'.
    rewrite (engine_pop_cons _ a rest) by done. rewrite Hov.
    rewrite engine_push_ok, wrap_in_range; [done|done|].
    unfold within_capacity in Hcap. rewrite Hs in Hcap.
    unfold Stack.size in *. simpl in *. lia.
  - unfold dispatch, bind. simpl.
    rewrite (engine_pop_cons w b (a :: rest)) by done. rewrite Hb0'.
    rewrite (engine_pop_cons _ a rest) by done. rewrite Hov.
    rewrite engine_push_ok, wrap_in_range; [done|done|].
    unfold within_capacity in Hcap. rewrite Hs in Hcap.
    unfold Stack.size in *. simpl in *. lia.
  - apply Z.quot_rem'.
  - rewrite <- Z.quot_abs by done.
    transitivity (Z.quot (Z.abs a) 1); [|rewrite Z.quot_1_r; lia].
    apply Z.quot_le_compat_l; lia.
Qed.

Lemma div_mod_on_two_values_witness :
  exists q r,
    dispatch (mkInstruction DIV []) (holding [2%Z; (-7)%Z])
      = Normal tt (with_engine (set_stack (q :: [])) (holding [2%Z; (-7)%Z])) /\
    dispatch (mkInstruction MOD []) (holding [2%Z; (-7)%Z])
      = Normal tt (with_engine (set_stack (r :: [])) (holding [2%Z; (-7)%Z])) /\
    (-7)%Z = (2 * q + r)%Z /\
    (Z.abs r < Z.abs 2)%Z /\
    (0 <= r * (-7))%Z /\
    (Z.abs q <= Z.abs (-7))%Z /\
    is_int q /\ is_int r.
Proof.
  apply (div_mod_on_two_values (-7) 2 [] [] (holding [2%Z; (-7)%Z])).
  - reflexivity.
  - unfold within_capacity, Stack.size, Stack.MAX_SIZE. simpl. lia.
  - unfold is_int, INT_MIN, INT_MAX. lia.
  - unfold is_int, INT_MIN, INT_MAX. lia.
  - lia.
  - unfold INT_MIN. lia.
Defined.

(** X11: with [b] on top of [a] on an operand stack within its capacity,
    CMP replaces the two by -1 when [a < b], by 1 when [a > b] and by 0
    when they are equal; with the operands the other way round it gives
    the opposite number. *)
Theorem cmp_on_two_values (a b : Z) (rest : Stack.t) (ops : list Z)
    (w : World) :
  stack (engine w) = b :: a :: rest ->
  within_capacity (stack (engine w)) ->
  dispatch (mkInstruction CMP ops) w
    = Normal tt (with_engine (set_stack (compare_ints a b :: rest)) w) /\
  (compare_ints a b = (-1)%Z <-> (a < b)%Z) /\
  (compare_ints a b = 0%Z <-> a = b) /\
  (compare_ints a b = 1%Z <-> (a > b)%Z) /\
  compare_ints b a = (- compare_ints a b)%Z.
Proof.
  intros Hs Hcap. split.
  - by apply (pop_pop_push w a b rest compare_ints).
  - unfold compare_ints.
    destruct (Z.ltb_spec a b), (Z.gtb_spec a b), (Z.ltb_spec b a),
      (Z.gtb_spec b a); lia.
Qed.

Lemma cmp_on_two_values_witness :
  dispatch (mkInstruction CMP []) (holding [5%Z; 3%Z])
    = Normal tt (with_engine (set_stack (compare_ints 3 5 :: []))
                   (holding [5%Z; 3%Z])) /\
  (compare_ints 3 5 = (-1)%Z <-> (3 < 5)%Z) /\
  (compare_ints 3 5 = 0%Z <-> 3%Z = 5%Z) /\
  (compare_ints 3 5 = 1%Z <-> (3 > 5)%Z) /\
  compare_ints 5 3 = (- compare_ints 3 5)%Z.
Proof.
  apply (cmp_on_two_values 3 5 [] [] (holding [5%Z; 3%Z])).
  - reflexivity.
  - unfold within_capacity, Stack.size, Stack.MAX_SIZE. simpl. lia.
Defined.

(** ** Memory access from the engine *)

(** X12: STORE pops its value before the address is checked: with an
    address outside [0, 65535] and a value [v] on top of the operand
    stack, it raises Memory address out of bounds after [v] has been
    popped; [v] is lost and the memory is as it was. *)
Theorem store_pops_before_address_check (instr : Instruction) (a v : Z)
    (rest : Stack.t) (w : World) :
  opcode instr = STORE ->
  operands instr !! 0 = Some a ->
  (a < 0 \/ 65535 < a)%Z ->
  stack (engine w) = v :: rest ->
  dispatch instr w
    = Thrown AddressOutOfBounds (with_engine (set_stack rest) w) /\
  memory (engine (with_engine (set_stack rest) w)) = memory (engine w).
Proof.
  intros Hop Ha Hout Hs. split; [|done].
  unfold dispatch, bind, operand. rewrite Hop, Ha.
  rewrite (engine_pop_cons w v rest) by done.
  unfold on_memory.
  destruct (memory_rejects_out_of_bounds_aux a v
              (memory (engine (with_engine (set_stack rest) w))) Hout) as [-> _].
  by destruct w as [[] ? ?].
Qed.

Lemma store_pops_before_address_check_witness :
  dispatch (mkInstruction STORE [(-1)%Z]) (holding [9%Z; 4%Z])
    = Thrown AddressOutOfBounds
        (with_engine (set_stack [4%Z]) (holding [9%Z; 4%Z])) /\
  memory (engine (with_engine (set_stack [4%Z]) (holding [9%Z; 4%Z])))
    = memory (engine (holding [9%Z; 4%Z])).
Proof.
  apply (store_pops_before_address_check (mkInstruction STORE [(-1)%Z])
           (-1) 9 [4%Z] (holding [9%Z; 4%Z])).
  - reflexivity.
  - reflexivity.
  - lia.
  - reflexivity.
Defined.

(** X13: LOAD checks the address before it pushes: outside [0, 65535] it
    raises Memory address out of bounds, also on a full stack; within,
    it raises Stack Overflow on a full stack and otherwise pushes the
    value stored at the address, or 0 when there is none.  A failed LOAD
    changes nothing, and no LOAD changes the memory. *)
Theorem load_checks_address_first (instr : Instruction) (a : Z) (w : World) :
  opcode instr = LOAD ->
  operands instr !! 0 = Some a ->
  dispatch instr w =
    if Memory.out_of_bounds a then Thrown AddressOutOfBounds w
    else if (Stack.MAX_SIZE <=? Stack.size (stack (engine w)))%nat
         then Thrown StackOverflow w
         else Normal tt
                (with_engine
                   (set_stack (default 0%Z (memory (engine w) !! a)
                                 :: stack (engine w))) w).
Proof.
  intros Hop Ha. unfold dispatch, bind, operand. rewrite Hop, Ha.
  unfold on_memory, Memory.load.
  destruct (Memory.out_of_bounds a); [by destruct w as [[] ? ?]|].
  assert (forall x,
    on_stack (Stack.push x) (with_engine (set_memory (memory (engine w))) w)
    = if (Stack.MAX_SIZE <=? Stack.size (stack (engine w)))%nat
      then Thrown StackOverflow w
      else Normal tt (with_engine (set_stack (x :: stack (engine w))) w)) as H.
  { intros x. unfold on_stack, Stack.push. destruct w as [[] ? ?].
    cbn -[Nat.leb Stack.size Stack.MAX_SIZE].
    by destruct (Nat.leb _ _). }
  destruct (memory (engine w) !! a); simpl; apply H.
Qed.

Lemma load_checks_address_first_witness :
  dispatch (mkInstruction LOAD [65536%Z]) (holding [1%Z]) =
    if Memory.out_of_bounds 65536 then Thrown AddressOutOfBounds (holding [1%Z])
    else if (Stack.MAX_SIZE <=? Stack.size (stack (engine (holding [1%Z]))))%nat
         then Thrown StackOverflow (holding [1%Z])
         else Normal tt
                (with_engine
                   (set_stack (default 0%Z (memory (engine (holding [1%Z])) !! 65536%Z)
                                 :: stack (engine (holding [1%Z]))))
                   (holding [1%Z])).
Proof.
  apply (load_checks_address_first (mkInstruction LOAD [65536%Z]) 65536
           (holding [1%Z])); reflexivity.
Defined.

(** ** The loop of [run], further *)

(** X14: when a running engine reaches a HALT at index [i] after [n]
    completed iterations, [run] returns after that one further dispatch:
    the running flag is cleared, the program counter is [i + 1], and the
    operand stack, the memory and both streams are what they were when
    HALT was reached; no later instruction is dispatched. *)
Theorem halt_stops_the_run (w0 w : World) (n i : nat) (instr : Instruction) :
  iterations n w0 = Some w ->
  running (engine w) = true ->
  pc (engine w) = i ->
  program (engine w) !! i = Some instr ->
  opcode instr = HALT ->
  exists w',
    run w0 = Some (Normal (S n) w') /\
    running (engine w') = false /\
    pc (engine w') = i + 1 /\
    stack (engine w') = stack (engine w) /\
    memory (engine w') = memory (engine w) /\
    cout w' = cout w /\
    cerr w' = cerr w.
Proof.
  intros Hn Hr Hpc Hi Hop. subst i.
  exists (advance (with_engine (set_running false) w)).
  split_and!; try done; [|simpl; lia].
  rewrite (iterations_run n w0 w Hn).
  rewrite (run_step w (advance (with_engine (set_running false) w)));
    [|by eapply continuing_at|].
  - rewrite run_stop by done. simpl. do 2 f_equal. lia.
  - apply (body_normal w instr); [done|]. unfold dispatch. by rewrite Hop.
Qed.

Lemma halt_stops_the_run_witness :
  exists w',
    run (load_program main_program fresh) = Some (Normal (S 8) w') /\
    running (engine w') = false /\
    pc (engine w') = 8 + 1 /\
    stack (engine w')
      = stack (engine (default fresh (iterations 8 (load_program main_program fresh)))) /\
    memory (engine w')
      = memory (engine (default fresh (iterations 8 (load_program main_program fresh)))) /\
    cout w' = cout (default fresh (iterations 8 (load_program main_program fresh))) /\
    cerr w' = cerr (default fresh (iterations 8 (load_program main_program fresh))).
Proof.
  apply (halt_stops_the_run (load_program main_program fresh)
           (default fresh (iterations 8 (load_program main_program fresh)))
           8 8 (mkInstruction HALT [])).
  - vm_compute. reflexivity.
  - vm_compute. reflexivity.
  - vm_compute. reflexivity.
  - vm_compute. reflexivity.
  - reflexivity.
Defined.

(** X15: once [run] has returned, a second call of [run] without a
    reload dispatches nothing and changes nothing. *)
Theorem run_again_does_nothing (w w' : World) (k : nat) :
  run w = Some (Normal k w') ->
  run w' = Some (Normal 0 w').
Proof.
  intros Hrun. unfold run in Hrun.
  apply run_loop_final in Hrun as (_ & _ & Hstop). by apply run_stop.
Qed.

Lemma run_again_does_nothing_witness :
  run (halted_on div_program DivisionByZero)
    = Some (Normal 0 (halted_on div_program DivisionByZero)).
Proof.
  apply (run_again_does_nothing (load_program div_program fresh)
           (halted_on div_program DivisionByZero) 3).
  vm_compute. reflexivity.
Defined.

Lemma execute_outcomes instr w w1 :
  execute instr w = Normal tt w1 ->
  dispatch instr w = Normal tt w1 \/
  exists e w2, dispatch instr w = Thrown e w2 /\ w1 = caught e w2.
Proof.
  unfold execute. destruct (dispatch instr w) as [[] w2|e w2|]; [| |done].
  - intros [= <-]. by left.
  - intros [= <-]. right. by exists e, w2.
Qed.

Lemma body_outcomes w w1 :
  body w = Normal tt w1 ->
  (exists instr,
     program (engine w) !! pc (engine w) = Some instr /\
     exists w2, dispatch instr w = Normal tt w2 /\ w1 = advance w2) \/
  exists instr e w2,
      program (engine w) !! pc (engine w) = Some instr /\
      dispatch instr w = Thrown e w2 /\ w1 = advance (caught e w2).
Proof.
  unfold body. destruct (_ !! _) as [instr|]; [|done].
  destruct (execute instr w) as [[] w2|e w2|] eqn:He; [|done..].
  intros [= <-]. apply execute_outcomes in He as [Hd|(e & w3 & Hd & ->)].
  - left. exists instr. split; [done|]. by exists w2.
  - right. by exists instr, e, w3.
Qed.

(** X16: one call of [run] writes at most one diagnostic line to [cerr];
    when it writes one, it is the line for the index just before the
    final program counter, and the running flag is cleared. *)
Theorem at_most_one_diagnostic (w w' : World) (k : nat) :
  run w = Some (Normal k w') ->
  cerr w' = cerr w \/
  exists e,
    cerr w' = (cerr w ++ diagnostic (pc (engine w') - 1) e)%string /\
    running (engine w') = false /\
    0 < k.
Proof.
  unfold run. generalize (length (program (engine w)) - pc (engine w)).
  intros fuel. revert w k.
  induction fuel as [|fuel IH]; intros w k Hrun.
  - simpl in Hrun. destruct (continuing w); [done|].
    injection Hrun as _ <-. by left.
  - destruct (continuing w) eqn:Hc.
    2:{ rewrite run_loop_stop in Hrun by done. injection Hrun as _ <-. by left. }
    rewrite run_loop_S in Hrun by done.
    destruct (body w) as [[] w1| |] eqn:Hb; [|done..].
    destruct (run_loop fuel w1) as [[k1 w2| |]|] eqn:H1; simplify_eq/=.
    apply body_outcomes in Hb
      as [(instr & Hi & w2 & Hd & ->)|(instr & e & w2 & Hi & Hd & ->)].
    + pose proof (keeps_dispatch instr w) as Hk. rewrite Hd in Hk.
      destruct Hk as (_ & _ & _ & Herr).
      destruct (IH _ _ H1) as [Hsame|(e & Hdiag & Hr & Hk)].
      * left. simpl in Hsame. congruence.
      * right. exists e. simpl in Hdiag. rewrite Hdiag, Herr.
        split_and!; [done|done|lia].
    + pose proof (keeps_dispatch instr w) as Hk. rewrite Hd in Hk.
      destruct Hk as (_ & Hpc & _ & Herr).
      rewrite run_loop_stop in H1 by done. injection H1 as <- <-.
      right. exists e. simpl. rewrite Hpc, Herr, Nat.sub_0_r.
      split_and!; [done|done|lia].
Qed.

Lemma at_most_one_diagnostic_witness :
  cerr (halted_on div_program DivisionByZero)
    = cerr (load_program div_program fresh) \/
  exists e,
    cerr (halted_on div_program DivisionByZero)
      = (cerr (load_program div_program fresh)
           ++ diagnostic (pc (engine (halted_on div_program DivisionByZero)) - 1) e)%string /\
    running (engine (halted_on div_program DivisionByZero)) = false /\
    0 < 3.
Proof.
  apply (at_most_one_diagnostic (load_program div_program fresh)
           (halted_on div_program DivisionByZero) 3).
  vm_compute. reflexivity.
Defined.

(** A relation between the states before and after, kept by every turn
    of the loop, holds between the engine [run] is called on and the
    engine it returns. *)
Lemma run_loop_relates (R : World -> World -> Prop) :
  (forall w, R w w) ->
  (forall w1 w2 w3, R w1 w2 -> R w2 w3 -> R w1 w3) ->
  (forall w w1, continuing w = true -> body w = Normal tt w1 -> R w w1) ->
  forall fuel w k w', run_loop fuel w = Some (Normal k w') -> R w w'.
Proof.
  intros Hrefl Htrans Hbody.
  induction fuel as [|fuel IH]; intros w k w' Hrun.
  - simpl in Hrun. destruct (continuing w); [done|].
    injection Hrun as _ <-. apply Hrefl.
  - destruct (continuing w) eqn:Hc.
    2:{ rewrite run_loop_stop in Hrun by done. injection Hrun as _ <-.
        apply Hrefl. }
    rewrite run_loop_S in Hrun by done.
    destruct (body w) as [[] w1| |] eqn:Hb; [|done..].
    destruct (run_loop fuel w1) as [[k1 w2| |]|] eqn:H1; simplify_eq/=.
    eapply Htrans; [by apply Hbody|by eapply IH].
Qed.

(** X17: [run] never touches the call stack, nor the program: they are
    the same when it returns; after [load_program] and [run] the call
    stack is therefore empty. *)
Theorem run_leaves_call_stack (p : list Instruction) (w0 w w' w2 : World)
    (k k2 : nat) :
  run w = Some (Normal k w') ->
  run (load_program p w0) = Some (Normal k2 w2) ->
  call_stack (engine w') = call_stack (engine w) /\
  program (engine w') = program (engine w) /\
  call_stack (engine w2) = [].
Proof.
  assert (forall w w' k, run w = Some (Normal k w') ->
            call_stack (engine w') = call_stack (engine w) /\
            program (engine w') = program (engine w)) as H.
  { clear. intros w w' k. unfold run.
    apply (run_loop_relates
             (fun w w' => call_stack (engine w') = call_stack (engine w) /\
                          program (engine w') = program (engine w)));
      [done|intros ? ? ? [] []; split; congruence|].
    intros v v1 _ Hb.
    apply body_outcomes in Hb
      as [(instr & Hi & v2 & Hd & ->)|(instr & e & v2 & Hi & Hd & ->)];
      pose proof (keeps_dispatch instr v) as Hk; rewrite Hd in Hk;
      by destruct Hk as (Hp & _ & Hc & _). }
  intros Hrun Hrun2. apply H in Hrun as [Hc Hp]. apply H in Hrun2 as [Hc2 _].
  split_and!; [done..|]. rewrite Hc2. simpl. apply drain_empty.
Qed.

Lemma run_leaves_call_stack_witness :
  call_stack (engine after_jump) = call_stack (engine at_jump) /\
  program (engine after_jump) = program (engine at_jump) /\
  call_stack (engine (halted_on div_program DivisionByZero)) = [].
Proof.
  apply (run_leaves_call_stack div_program fresh at_jump after_jump
           (halted_on div_program DivisionByZero) 1 3).
  - vm_compute. reflexivity.
  - vm_compute. reflexivity.
Defined.

(** ** The representation invariant *)

Lemma store_keys a v : preserves keys_in_bounds (Memory.store a v).
Proof.
  intros m Hm. unfold Memory.store.
  destruct (Memory.out_of_bounds a) eqn:Ha; [done|].
  intros b Hb. destruct (decide (a = b)) as [<-|Hne].
  - unfold Memory.out_of_bounds in Ha. apply orb_false_elim in Ha as [H1 H2].
    apply Z.ltb_ge in H1, H2. lia.
  - rewrite lookup_insert_ne in Hb by done. by apply Hm.
Qed.

Lemma load_keys a : preserves keys_in_bounds (Memory.load a).
Proof.
  intros m Hm. unfold Memory.load.
  destruct (Memory.out_of_bounds a); [done|]. by destruct (m !! a).
Qed.

Lemma ok_on_stack {A} (m : M Stack.t A) :
  preserves within_capacity m -> preserves engine_ok (on_stack m).
Proof.
  intros H w [Hs Hm]. unfold on_stack. specialize (H _ Hs).
  by destruct (m _).
Qed.

Lemma ok_on_memory {A} (m : M Memory.t A) :
  preserves keys_in_bounds m -> preserves engine_ok (on_memory m).
Proof.
  intros H w [Hs Hm]. unfold on_memory. specialize (H _ Hm).
  by destruct (m _).
Qed.

Lemma ok_operand instr i : preserves engine_ok (operand instr i).
Proof. intros w Hw. unfold operand. by destruct (_ !! _). Qed.

Lemma ok_dispatch instr : preserves engine_ok (dispatch instr).
Proof.
  unfold dispatch.
  destruct (opcode instr);
    repeat first
      [ apply ok_on_stack | apply ok_on_memory | apply ok_operand
      | apply push_within | apply pop_within | apply dup_within
      | apply swap_within | apply store_keys | apply load_keys
      | apply preserves_ret | apply preserves_throw
      | apply preserves_undefined
      | apply preserves_bind; [|intros ?]
      | match goal with
        | |- preserves _ (if ?b then _ else _) => destruct b
        end ];
    by intros w Hw.
Qed.

(** X18: the engine keeps its representation invariant.  A fresh engine
    has at most 1024 values on the operand stack and only addresses
    within [0, 65535] in its memory; and if that holds of an engine, it
    holds again when a program has been loaded and [run] has returned. *)
Theorem run_keeps_engine_ok (p : list Instruction) (w w' : World) (k : nat) :
  engine_ok w ->
  run (load_program p w) = Some (Normal k w') ->
  engine_ok fresh /\
  Stack.size (stack (engine w')) <= 1024 /\
  forall a v, memory (engine w') !! a = Some v -> (0 <= a <= 65535)%Z.
Proof.
  intros Hok Hrun. split.
  { split.
    - unfold within_capacity, Stack.size, Stack.MAX_SIZE. simpl. lia.
    - intros a [v Hv]. simpl in Hv. by rewrite lookup_empty in Hv. }
  assert (forall fuel v n v',
            run_loop fuel v = Some (Normal n v') ->
            engine_ok v -> engine_ok v') as Hloop.
  { apply (run_loop_relates (fun w w' => engine_ok w -> engine_ok w'));
      [done|by auto|].
    intros v v1 _ Hb Hv.
    apply body_outcomes in Hb
      as [(instr & Hi & v2 & Hd & ->)|(instr & e & v2 & Hi & Hd & ->)];
      pose proof (ok_dispatch instr v Hv) as Hk; rewrite Hd in Hk;
      done. }
  destruct (Hloop _ _ _ _ Hrun Hok) as [Hs Hm].
  split; [done|]. intros a v Hv. apply Hm. by exists v.
Qed.

Lemma run_keeps_engine_ok_witness :
  engine_ok fresh /\
  Stack.size (stack (engine (halted_on div_program DivisionByZero))) <= 1024 /\
  forall a v,
    memory (engine (halted_on div_program DivisionByZero)) !! a = Some v ->
    (0 <= a <= 65535)%Z.
Proof.
  apply (run_keeps_engine_ok div_program fresh
           (halted_on div_program DivisionByZero) 3).
  - split.
    + unfold within_capacity, Stack.size, Stack.MAX_SIZE. simpl. lia.
    + intros a [v Hv]. simpl in Hv. rewrite lookup_empty in Hv. discriminate.
  - vm_compute. reflexivity.
Defined.

(** ** What is written to [cout] *)

Lemma string_app_nil_r (s : string) : (s ++ EmptyString)%string = s.
Proof.
  induction s as [|c s IH]; [done|].
  change (String c (s ++ EmptyString)%string = String c s). by rewrite IH.
Qed.

Lemma string_app_assoc (s1 s2 s3 : string) :
  ((s1 ++ s2) ++ s3)%string = (s1 ++ (s2 ++ s3))%string.
Proof.
  induction s1 as [|c s1 IH]; [done|].
  change (String c ((s1 ++ s2) ++ s3)%string
          = String c (s1 ++ (s2 ++ s3))%string).
  by rewrite IH.
Qed.

Section Relates.
Variable R : World -> World -> Prop.
Hypothesis R_refl : forall w, R w w.
Hypothesis R_trans : forall w1 w2 w3, R w1 w2 -> R w2 w3 -> R w1 w3.
Hypothesis R_engine : forall f w, R w (with_engine f w).

Lemma relates_ret {A} (a : A) : relates R (ret a).
Proof. intros w. apply R_refl. Qed.

Lemma relates_throw {A} e : relates R (@throw World A e).
Proof. intros w. apply R_refl. Qed.

Lemma relates_undefined {A} : relates R (@undefined World A).
Proof. by intros w. Qed.

Lemma relates_bind {A B} (m : M World A) (k : A -> M World B) :
  relates R m -> (forall a, relates R (k a)) -> relates R (bind m k).
Proof.
  intros Hm Hk w. unfold bind. specialize (Hm w).
  destruct (m w) as [a w1|e w1|]; [|done..].
  specialize (Hk a w1). destruct (k a w1); [| |done]; by eapply R_trans.
Qed.

Lemma relates_on_stack {A} (m : M Stack.t A) : relates R (on_stack m).
Proof. intros w. unfold on_stack. destruct (m _); [| |done]; apply R_engine. Qed.

Lemma relates_on_memory {A} (m : M Memory.t A) : relates R (on_memory m).
Proof. intros w. unfold on_memory. destruct (m _); [| |done]; apply R_engine. Qed.

Lemma relates_operand instr i : relates R (operand instr i).
Proof. intros w. unfold operand. destruct (_ !! _); [|done]. apply R_refl. Qed.

(** Every opcode relates the states as [R] says, if printing does. *)
Lemma relates_dispatch instr :
  (opcode instr = PRINT -> forall v, relates R (print v)) ->
  relates R (dispatch instr).
Proof.
  intros Hprint. unfold dispatch.
  destruct (opcode instr);
    repeat first
      [ apply relates_on_stack | apply relates_on_memory
      | apply relates_operand | apply relates_ret | apply relates_throw
      | apply relates_undefined
      | by apply Hprint
      | apply relates_bind; [|intros ?]
      | match goal with
        | |- relates _ (if ?b then _ else _) => destruct b
        end ].
  intros w. apply R_engine.
Qed.

(** ... and so does a turn of the loop. *)
Lemma relates_body w w1 :
  (forall instr, program (engine w) !! pc (engine w) = Some instr ->
     opcode instr = PRINT -> forall v, relates R (print v)) ->
  (forall text w, R w (write_cerr text w)) ->
  body w = Normal tt w1 -> R w w1.
Proof.
  intros Hprint Hcerr Hb.
  apply body_outcomes in Hb
    as [(instr & Hi & w2 & Hd & ->)|(instr & e & w2 & Hi & Hd & ->)];
    pose proof (relates_dispatch instr (Hprint instr Hi) w) as Hk;
    rewrite Hd in Hk.
  - eapply R_trans; [done|]. apply R_engine.
  - eapply R_trans; [done|]. unfold advance, caught.
    eapply R_trans; [apply Hcerr|]. eapply R_trans; apply R_engine.
Qed.

End Relates.

(** X19: text written to [cout] is never taken back: when [run] returns,
    [cout] is what it was followed by what the run has printed. *)
Theorem run_only_adds_to_cout (w w' : World) (k : nat) :
  run w = Some (Normal k w') ->
  exists text, cout w' = (cout w ++ text)%string.
Proof.
  unfold run.
  apply (run_loop_relates more_cout).
  - intros v. exists EmptyString. by rewrite string_app_nil_r.
  - intros v1 v2 v3 [t1 H1] [t2 H2]. exists (t1 ++ t2)%string.
    by rewrite H2, H1, string_app_assoc.
  - intros v v1 _. apply relates_body.
    + intros u. exists EmptyString. by rewrite string_app_nil_r.
    + intros v1' v2 v3 [t1 H1] [t2 H2]. exists (t1 ++ t2)%string.
      by rewrite H2, H1, string_app_assoc.
    + intros f u. exists EmptyString. by rewrite string_app_nil_r.
    + intros instr _ _ x u. by exists (show_int x ++ endl)%string.
    + intros text u. exists EmptyString. by rewrite string_app_nil_r.
Qed.

Lemma run_only_adds_to_cout_witness :
  exists text,
    cout (default fresh (iterations 9 (load_program main_program fresh)))
      = (cout (load_program main_program fresh) ++ text)%string.
Proof.
  apply (run_only_adds_to_cout (load_program main_program fresh)
           (default fresh (iterations 9 (load_program main_program fresh))) 9).
  vm_compute. reflexivity.
Defined.

(** X20: a program without a PRINT instruction writes nothing to [cout]:
    when [run] returns, [cout] is what it was. *)
Theorem run_without_print (w w' : World) (k : nat) :
  Forall (fun instr => opcode instr <> PRINT) (program (engine w)) ->
  run w = Some (Normal k w') ->
  cout w' = cout w.
Proof.
  unfold run. generalize (length (program (engine w)) - pc (engine w)).
  intros fuel Hnone Hrun.
  enough (program (engine w') = program (engine w) /\ cout w' = cout w)
    as [_ H] by done.
  revert Hrun Hnone.
  apply (run_loop_relates
           (fun w w' =>
              Forall (fun instr => opcode instr <> PRINT) (program (engine w)) ->
              program (engine w') = program (engine w) /\ cout w' = cout w)).
  - done.
  - intros v1 v2 v3 H1 H2 Hn. destruct (H1 Hn) as [Hp Hc].
    rewrite <- Hp in Hn. destruct (H2 Hn) as [Hp2 Hc2].
    split; congruence.
  - intros v v1 _ Hb Hn. split; [by apply body_keeps in Hb as [? _]|].
    revert Hb. apply (relates_body same_cout); try done.
    + intros v1' v2 v3 H1 H2. unfold same_cout in *. congruence.
    + intros instr Hi Hop. eapply Forall_lookup_1 in Hn; [|done]. done.
Qed.

Lemma run_without_print_witness :
  cout (halted_on div_program DivisionByZero)
    = cout (load_program div_program fresh).
Proof.
  apply (run_without_print (load_program div_program fresh)
           (halted_on div_program DivisionByZero) 3).
  - apply (bool_decide_unpack _). vm_compute. reflexivity.
  - vm_compute. reflexivity.
Defined.

(** ** Operands beyond the first, and the debug helper *)

(** X21: dispatch reads at most the first operand: operands after it are
    ignored, and an opcode that reads none behaves the same whatever
    operands its instruction carries. *)
Theorem surplus_operands_ignored (op op0 : OpCode) (v : Z)
    (surplus ops : list Z) (w : World) :
  arity op0 = 0 ->
  dispatch (mkInstruction op (v :: surplus)) w
    = dispatch (mkInstruction op [v]) w /\
  dispatch (mkInstruction op0 ops) w = dispatch (mkInstruction op0 []) w.
Proof.
  intros H0. split.
  - by destruct op.
  - by destruct op0.
Qed.

Lemma surplus_operands_ignored_witness :
  dispatch (mkInstruction PUSH [1%Z; 2%Z; 3%Z]) (holding [])
    = dispatch (mkInstruction PUSH [1%Z]) (holding []) /\
  dispatch (mkInstruction ADD [9%Z]) (holding [])
    = dispatch (mkInstruction ADD []) (holding []).
Proof.
  apply (surplus_operands_ignored PUSH ADD 1 [2%Z; 3%Z] [9%Z] (holding [])).
  reflexivity.
Defined.

(** X22: [dump_stack] never throws and changes nothing in the engine; it
    adds to [cout] one line with the size of the operand stack and, when
    the stack is not empty, a second line with its top value. *)
Theorem dump_stack_only_reports (w : World) :
  exists w',
    dump_stack w = Normal tt w' /\
    engine w' = engine w /\
    cerr w' = cerr w /\
    cout w' =
      (cout w
       ++ ("Stack size: " ++ show_size (Stack.size (stack (engine w))) ++ endl)
       ++ match stack (engine w) with
          | [] => EmptyString
          | top :: _ => "Top of stack: " ++ show_int top ++ endl
          end)%string.
Proof.
  destruct w as [[p s m c n r] o e]. unfold dump_stack. simpl.
  destruct s as [|top s]; simpl.
  - eexists. by split_and!.
  - unfold bind, on_stack. simpl.
    eexists. split_and!; try done. simpl.
    by rewrite string_app_assoc.
Qed.

(** ** Containment of errors, short of an overflowing division *)

(** X23: in a program whose instructions all carry the operands their
    opcode reads, the dispatch of an instruction is undefined exactly
    when it is a DIV or a MOD of [INT_MIN] by [-1]; an error it throws is
    one of Stack Overflow, Stack Underflow, Division by zero, Modulo by
    zero, Memory address out of bounds and Unknown instruction, and
    [execute] catches it and clears the running flag.  [run] lets no
    exception out; it returns, or else it has come to divide [INT_MIN]
    by [-1]. *)
Theorem errors_contained_short_of_overflow (p : list Instruction)
    (w0 : World) :
  Forall well_formed p ->
  (forall instr w, instr ∈ p ->
     (dispatch instr w = Undefined <-> division_overflows_at instr w) /\
     forall e w1, dispatch instr w = Thrown e w1 ->
       e ∈ [StackOverflow; StackUnderflow; DivisionByZero; ModuloByZero;
            AddressOutOfBounds; UnknownInstruction] /\
       execute instr w = Normal tt (caught e w1) /\
       running (engine (caught e w1)) = false) /\
  (forall e w', run (load_program p w0) <> Some (Thrown e w')) /\
  ((exists k w', run (load_program p w0) = Some (Normal k w')) \/
   (run (load_program p w0) = Some Undefined /\
    reaches_division_overflow (load_program p w0))).
Proof.
  intros Hwf. split_and!.
  - intros instr w Hin.
    assert (well_formed instr) as Hi
      by (eapply Forall_forall in Hwf; eauto).
    pose proof (dispatch_outcome instr w Hi) as Hs.
    split.
    + split; [|apply dispatch_division_overflow].
      intros Hd. by rewrite Hd in Hs.
    + intros e w1 Hd. rewrite Hd in Hs. split_and!.
      * by apply raisable_true.
      * unfold execute. by rewrite Hd.
      * done.
  - intros e w'. apply run_loop_never_throws.
  - unfold run. apply run_loop_outcome; [done|simpl; lia].
Qed.

Lemma errors_contained_short_of_overflow_witness :
  (forall instr w, instr ∈ overflow_div_program ->
     (dispatch instr w = Undefined <-> division_overflows_at instr w) /\
     forall e w1, dispatch instr w = Thrown e w1 ->
       e ∈ [StackOverflow; StackUnderflow; DivisionByZero; ModuloByZero;
            AddressOutOfBounds; UnknownInstruction] /\
       execute instr w = Normal tt (caught e w1) /\
       running (engine (caught e w1)) = false) /\
  (forall e w',
     run (load_program overflow_div_program fresh) <> Some (Thrown e w')) /\
  ((exists k w',
      run (load_program overflow_div_program fresh) = Some (Normal k w')) \/
   (run (load_program overflow_div_program fresh) = Some Undefined /\
    reaches_division_overflow (load_program overflow_div_program fresh))).
Proof.
  apply (errors_contained_short_of_overflow overflow_div_program fresh).
  repeat (apply Forall_cons; split; [unfold well_formed; simpl; lia|]).
  apply Forall_nil_2.
Defined.
